(** * Arrow IPC stream writer: [arrow/ipc/writer.go]

    A shallow embedding of the record encoder ([recordEncoder.Encode],
    [recordEncoder.visit], [getZeroBasedValueOffsets], [newTruncatedBitmap],
    [needTruncate]) and of the stream writer ([Writer.Write], [Writer.start],
    [Writer.Close], [swriter]) together with the properties the design
    document states about them.

    Go pointers that may be nil are [option]s, [int64] arithmetic is [Z]
    arithmetic followed by an explicit wrap-around, reference counts live in
    a finite map from buffer addresses to counters, and a function that may
    return an error or panic is a state transformer returning an
    [outcome]. *)

From Stdlib Require Import ZArith Lia List Bool.
From Stdlib.Init Require Import Byte.
From stdpp Require Import gmap strings list fin_maps.
Import ListNotations.

Local Open Scope Z_scope.

(** ** Machine integers *)

Module Int64.
Definition min_int : Z := - 2 ^ 63.
Definition max_int : Z := 2 ^ 63 - 1.

(** Two's complement wrap-around of a mathematical integer. *)
Definition wrap (z : Z) : Z := (z + 2 ^ 63) mod 2 ^ 64 - 2 ^ 63.

Definition add (x y : Z) : Z := wrap (x + y).
Definition sub (x y : Z) : Z := wrap (x - y).
Definition mul (x y : Z) : Z := wrap (x * y).
(** Go's [/] truncates towards zero. *)
Definition div (x y : Z) : Z := wrap (Z.quot x y).

Definition in_range (z : Z) : Prop := min_int <= z <= max_int.
End Int64.

Definition MaxInt32 : Z := 2 ^ 31 - 1.

(** ** Alignment helpers *)

Module bitutil.
(** Modelled from the spec: package [arrow/internal/bitutil] is not part of
    the sources at hand.  "AlignmentMath: pure helpers computing padded
    length to a fixed alignment boundary (8 bytes) and bit-count-to-byte-count
    conversion for validity bitmaps"; "Padded length: a buffer's logical
    byte length rounded up to the next 8-byte boundary". *)
Definition CeilByte64 (size : Z) : Z := Z.land (Int64.add size 7) (Z.lnot 7).

(** Modelled from the spec: [bitutil.IsMultipleOf8], of the same package;
    "the payload's total body size is an exact multiple of 8". *)
Definition IsMultipleOf8 (v : Z) : bool := Z.land v 7 =? 0.

(** Modelled from the spec: [bitutil.BytesForBits], of the same package; the
    "bit-count-to-byte-count conversion for validity bitmaps",
    [ceil(length/8)]. *)
Definition BytesForBits (bits : Z) : Z := Z.shiftr (Int64.add bits 7) 3.
End bitutil.

(** Modelled from the spec: [paddedLength] lives in another file of package
    [ipc]; it rounds [nbytes] up to a multiple of [alignment]. *)
Definition paddedLength (nbytes alignment : Z) : Z :=
  Int64.mul (Int64.div (Int64.sub (Int64.add nbytes alignment) 1) alignment) alignment.

(** ** Errors, panics, outcomes *)

Inductive error : Type :=
| errInconsistentSchema
| errMaxRecursion
| errBigArray
| errIO (code : nat)
| Wrap (msg : string) (cause : error).

(** [errors.Cause]: the innermost error of a chain of wrappers. *)
Fixpoint Cause (e : error) : error :=
  match e with
  | Wrap _ e' => Cause e'
  | _ => e
  end.

Inductive panic : Type :=
| NotImplemented
| NotImplementedOffset (offset : Z)
| NilDereference
| IndexOutOfRange
| UnknownArray
| NotAligned.

Inductive outcome (A : Type) : Type :=
| Ok (a : A)
| Err (e : error)
| Panic (p : panic)
| OutOfFuel.
Arguments Ok {A} a.
Arguments Err {A} e.
Arguments Panic {A} p.
Arguments OutOfFuel {A}.

(** ** The state-and-outcome monad *)

Definition M (S A : Type) : Type := S -> outcome A * S.

Definition ret {S A} (a : A) : M S A := fun s => (Ok a, s).

Definition bind {S A B} (m : M S A) (k : A -> M S B) : M S B :=
  fun s =>
    match m s with
    | (Ok a, s') => k a s'
    | (Err e, s') => (Err e, s')
    | (Panic p, s') => (Panic p, s')
    | (OutOfFuel, s') => (OutOfFuel, s')
    end.

Definition fail {S A} (e : error) : M S A := fun s => (Err e, s).
Definition throw {S A} (p : panic) : M S A := fun s => (Panic p, s).
Definition timeout {S A} : M S A := fun s => (OutOfFuel, s).
Definition gets {S A} (f : S -> A) : M S A := fun s => (Ok (f s), s).
Definition modify {S} (f : S -> S) : M S unit := fun s => (Ok tt, f s).

(** A deferred call: [cleanup] runs when [m] is left, however it is left. *)
Definition defer {S A} (cleanup : S -> S) (m : M S A) : M S A :=
  fun s => let (r, s') := m s in (r, cleanup s').

(** [errors.Wrapf(err, msg)] applied to the error of [m], if any. *)
Definition wrapErr {S A} (msg : string) (m : M S A) : M S A :=
  fun s =>
    match m s with
    | (Err e, s') => (Err (Wrap msg e), s')
    | rs => rs
    end.

Notation "x <- m ;; k" := (bind m (fun x => k))
  (at level 100, m at next level, right associativity).
Notation "m ;;; k" := (bind m (fun _ => k))
  (at level 100, right associativity).

(** ** Buffers and reference counts *)

(** A [*memory.Buffer] is [option Buffer]; two pointers are the same buffer
    when their addresses agree. *)
Record Buffer : Type := mkBuffer {
  buf_addr : positive;
  buf_bytes : list byte
}.

(** Reference counts of the live buffers, by address. *)
Abbreviation refcounts := (gmap positive Z).

Definition retain_addr (b : option Buffer) (h : refcounts) : refcounts :=
  match b with
  | Some b => alter Z.succ (buf_addr b) h
  | None => h
  end.

Definition release_addr (b : option Buffer) (h : refcounts) : refcounts :=
  match b with
  | Some b => alter Z.pred (buf_addr b) h
  | None => h
  end.

Definition releaseAll (bs : list (option Buffer)) (h : refcounts) : refcounts :=
  foldl (fun h b => release_addr b h) h bs.

(** ** Arrays *)

Set Warnings "-register-all".

(** [array.Data]: what every array exposes. *)
Record Data : Type := mkData {
  data_len : Z;
  data_nulls : Z;
  data_offset : Z;
  data_buffers : list (option Buffer)
}.

(** One constructor per case of the type switch in [visit]; each carries
    what the accessors of that array type return. *)
Inductive Array : Type :=
| NullArr (d : Data)
| BooleanArr (d : Data)
| FixedWidthArr (bitWidth : Z) (d : Data)
| BinaryArr (d : Data) (valueBytes : list byte)
| StringArr (d : Data) (valueOffsets : list Z)
| StructArr (d : Data) (children : list Array)
| ListArr (d : Data) (offsets : list Z) (values : Array)
| FixedSizeListArr (d : Data) (offsets : list Z) (values : Array)
| UnknownArr (d : Data).

Definition Array_Data (a : Array) : Data :=
  match a with
  | NullArr d | BooleanArr d | FixedWidthArr _ d | BinaryArr d _
  | StringArr d _ | StructArr d _ | ListArr d _ _
  | FixedSizeListArr d _ _ | UnknownArr d => d
  end.

Definition Array_Len (a : Array) : Z := data_len (Array_Data a).
Definition Array_NullN (a : Array) : Z := data_nulls (Array_Data a).

(** Number of array nodes on the longest path the traversal follows. *)
Fixpoint nesting (a : Array) : nat :=
  match a with
  | StructArr _ cs => S (foldr (fun c acc => Nat.max (nesting c) acc) O cs)
  | ListArr _ _ v | FixedSizeListArr _ _ v => S (nesting v)
  | _ => 1%nat
  end.

(** ** Encoder state *)

Record fieldMetadata : Type := mkFieldMetadata {
  fm_Len : Z;
  fm_Nulls : Z;
  fm_Offset : Z
}.

Record bufferMetadata : Type := mkBufferMetadata {
  bm_Offset : Z;
  bm_Len : Z
}.

Inductive MessageType : Type := MessageSchema | MessageRecordBatch.

Record payload : Type := mkPayload {
  msg : MessageType;
  pmeta : option (list byte);
  body : list (option Buffer);
  size : Z
}.

Record recordEncoder : Type := mkRecordEncoder {
  fields : list fieldMetadata;
  meta : list bufferMetadata;
  depth : Z;
  start : Z;
  allow64b : bool
}.

(** Everything [Encode] and [visit] read and write: the encoder [w], the
    payload [p] it fills, the reference counts of the buffers, and the
    number of temporary array views made by [array.NewSlice] that have not
    been released yet. *)
Record St : Type := mkSt {
  enc : recordEncoder;
  pay : payload;
  refs : refcounts;
  views : nat
}.

Definition set_refs (f : refcounts -> refcounts) (s : St) : St :=
  mkSt (enc s) (pay s) (f (refs s)) (views s).
Definition set_views (f : nat -> nat) (s : St) : St :=
  mkSt (enc s) (pay s) (refs s) (f (views s)).
Definition set_depth (f : Z -> Z) (s : St) : St :=
  let w := enc s in
  mkSt (mkRecordEncoder (fields w) (meta w) (f (depth w)) (start w) (allow64b w))
       (pay s) (refs s) (views s).
Definition push_field (fm : fieldMetadata) (s : St) : St :=
  let w := enc s in
  mkSt (mkRecordEncoder (fields w ++ [fm]) (meta w) (depth w) (start w) (allow64b w))
       (pay s) (refs s) (views s).
Definition push_body (b : option Buffer) (s : St) : St :=
  let p := pay s in
  mkSt (enc s) (mkPayload (msg p) (pmeta p) (body p ++ [b]) (size p))
       (refs s) (views s).

(** ** Buffer methods *)

(** Modelled from the spec: [Buffer.Len] of package [memory], which is not
    part of the sources at hand.  "Buffer: reference-counted contiguous byte
    region; retain increments a shared refcount, release decrements and
    frees at zero; exposes length".  The methods read fields of their
    receiver, so calling one through a nil pointer panics. *)
Definition Buffer_Len (b : option Buffer) : M St Z :=
  match b with
  | Some b => ret (Z.of_nat (length (buf_bytes b)))
  | None => throw NilDereference
  end.

(** Modelled from the spec: [Buffer.Retain] of package [memory]; "retain
    increments a shared refcount". *)
Definition Buffer_Retain (b : option Buffer) : M St unit :=
  match b with
  | Some _ => modify (set_refs (retain_addr b))
  | None => throw NilDereference
  end.

Definition is_nil {A} (p : option A) : bool :=
  match p with None => true | Some _ => false end.

(** [xs[i]] on a Go slice. *)
Definition index {S A} (xs : list A) (i : Z) : M S A :=
  if i <? 0 then throw IndexOutOfRange
  else match xs !! Z.to_nat i with
       | Some x => ret x
       | None => throw IndexOutOfRange
       end.

(** ** The truncation policy *)

Section Truncation.
(** Alignment of buffers, a constant of package [ipc] declared outside
    [writer.go]. *)
Variable kArrowAlignment : Z.

(** writer.go, [needTruncate]. *)
Definition needTruncate (offset : Z) (buf : option Buffer) (minLength : Z) : bool :=
  match buf with
  | None => false
  | Some b => negb (offset =? 0) || (minLength <? Z.of_nat (length (buf_bytes b)))
  end.

(** writer.go, [newTruncatedBitmap]. *)
Definition newTruncatedBitmap (offset length : Z) (input : option Buffer)
  : M St (option Buffer) :=
  if negb (is_nil input) then
    Buffer_Retain input ;;;
    ret input
  else
    let minLength := paddedLength (bitutil.BytesForBits length) kArrowAlignment in
    must_copy <- (if negb (offset =? 0) then ret true
                  else n <- Buffer_Len input ;; ret (minLength <? n)) ;;
    if (must_copy : bool) then throw NotImplemented
    else Buffer_Retain input ;;; ret input.

(** writer.go, [recordEncoder.getZeroBasedValueOffsets]. *)
Definition getZeroBasedValueOffsets (arr : Array) : M St (option Buffer) :=
  let data := Array_Data arr in
  voffsets <- index (data_buffers data) 1 ;;
  if negb (data_offset data =? 0) then throw (NotImplementedOffset (data_offset data))
  else Buffer_Retain voffsets ;;; ret voffsets.
End Truncation.

(** ** The record encoder *)

Section Encoder.
Variable kArrowAlignment : Z.

(** [array.NewSlice] belongs to package [array]: given an array and two
    indices it either panics ([None]) or yields a new view of the array. *)
Variable NewSlice : Array -> Z -> Z -> option Array.

(** [writeRecordMessage] serialises the record-batch header; it is defined
    in another file of package [ipc]. *)
Variable writeRecordMessage :
  Z -> Z -> list fieldMetadata -> list bufferMetadata -> list byte.

(** A view made by [array.NewSlice] is alive until it is released. *)
Definition array_NewSlice (arr : Array) (i j : Z) : M St Array :=
  match NewSlice arr i j with
  | Some v => modify (set_views S) ;;; ret v
  | None => throw IndexOutOfRange
  end.

Definition Array_Release : St -> St := set_views Nat.pred.

(** [w.depth--] and [w.depth++]. *)
Definition depth_dec : M St unit := modify (set_depth (fun d => Int64.sub d 1)).
Definition depth_inc : M St unit := modify (set_depth (fun d => Int64.add d 1)).

(** The [switch] that either panics or retains the values buffer
    (writer.go:236-241, 258-263, 281-286). *)
Definition retainOrCopy (offset : Z) (values : option Buffer) (minLength : Z)
  : M St unit :=
  if needTruncate offset values minLength then throw NotImplemented
  else Buffer_Retain values.

(** The loop over the fields of a struct array (writer.go:293-298). *)
Fixpoint visitFields (visit : Array -> M St unit) (cs : list Array) : M St unit :=
  match cs with
  | [] => ret tt
  | c :: cs' =>
      wrapErr "could not visit field %d of struct-array" (visit c) ;;;
      visitFields visit cs'
  end.

(** The range of child values a list array designates
    (writer.go:322-325 and 360-363). *)
Definition valuesRange (voffsets : option Buffer) (offsets : list Z) (len : Z)
  : M St (Z * Z) :=
  if negb (is_nil voffsets) then
    o0 <- index offsets 0 ;;
    on <- index offsets len ;;
    ret (o0, Int64.sub on o0)
  else ret (0, 0).

(** The condition under which the child values are sliced
    (writer.go:327 and 365). *)
Definition mustSlice (offsets : list Z) (values_length : Z) (values : Array) : bool :=
  negb (Nat.eqb (length offsets) 0) || (values_length <? Array_Len values).

(** The child handed to the recursive visit, and whether it is a temporary
    view that must be released (writer.go:327-331 and 365-369). *)
Definition sliceValues (offsets : list Z) (values : Array)
    (values_offset values_length : Z) : M St (Array * bool) :=
  if mustSlice offsets values_length values then
    slice <- array_NewSlice values values_offset values_length ;;
    ret (slice, true)
  else ret (values, false).

(** The deferred closure of the list cases (writer.go:316-320, 354-358). *)
Definition releaseIf (mustRelease : bool) (s : St) : St :=
  if mustRelease then Array_Release s else s.

(** The body shared, word for word, by the [*arrow.ListType] and the
    [*arrow.FixedSizeListType] cases (writer.go:301-337 and 339-375). *)
Definition visitList (visit : Array -> M St unit)
    (arr : Array) (offsets : list Z) (values : Array) : M St unit :=
  voffsets <- wrapErr "could not retrieve zero-based value offsets for array %T"
                (getZeroBasedValueOffsets arr) ;;
  modify (push_body voffsets) ;;;
  depth_dec ;;;
  range <- valuesRange voffsets offsets (Array_Len arr) ;;
  child <- sliceValues offsets values (fst range) (snd range) ;;
  defer (releaseIf (snd child))
    (wrapErr "could not visit list element for array %T" (visit (fst child)) ;;;
     depth_inc).

(** writer.go, [recordEncoder.visit].  The recursion is bounded by the
    depth budget; [fuel] makes that bound structural. *)
Fixpoint visit_fuel (fuel : nat) (arr : Array) : M St unit :=
  w <- gets enc ;;
  if depth w <=? 0 then fail errMaxRecursion else
  match fuel with
  | O => timeout
  | S fuel' =>
    if negb (allow64b w) && (Array_Len arr >? MaxInt32) then fail errBigArray else
    modify (push_field (mkFieldMetadata (Array_Len arr) (Array_NullN arr) 0)) ;;;
    (if Array_NullN arr =? 0 then modify (push_body None)
     else
       let data := Array_Data arr in
       input <- index (data_buffers data) 0 ;;
       bitmap <- newTruncatedBitmap kArrowAlignment
                   (data_offset data) (data_len data) input ;;
       modify (push_body bitmap)) ;;;
    match arr with
    | NullArr _ => modify (push_body None)
    | BooleanArr data =>
        input <- index (data_buffers data) 1 ;;
        bitmap <- newTruncatedBitmap kArrowAlignment
                    (data_offset data) (data_len data) input ;;
        modify (push_body bitmap)
    | FixedWidthArr bitWidth data =>
        values <- index (data_buffers data) 1 ;;
        let typeWidth := Z.quot bitWidth 8 in
        let minLength :=
          paddedLength (Int64.mul (Array_Len arr) typeWidth) kArrowAlignment in
        retainOrCopy (data_offset data) values minLength ;;;
        modify (push_body values)
    | BinaryArr data valueBytes =>
        voffsets <- wrapErr "could not retrieve zero-based value offsets from %T"
                      (getZeroBasedValueOffsets arr) ;;
        values <- index (data_buffers data) 2 ;;
        let totalDataBytes :=
          if negb (is_nil voffsets) then Z.of_nat (length valueBytes) else 0 in
        retainOrCopy (data_offset data) values totalDataBytes ;;;
        modify (push_body voffsets) ;;;
        modify (push_body values)
    | StringArr data valueOffsets =>
        voffsets <- wrapErr "could not retrieve zero-based value offsets from %T"
                      (getZeroBasedValueOffsets arr) ;;
        values <- index (data_buffers data) 2 ;;
        totalDataBytes <-
          (if negb (is_nil voffsets) then
             hi <- index valueOffsets (Array_Len arr) ;;
             lo <- index valueOffsets 0 ;;
             ret (Int64.sub hi lo)
           else ret 0) ;;
        retainOrCopy (data_offset data) values totalDataBytes ;;;
        modify (push_body voffsets) ;;;
        modify (push_body values)
    | StructArr _ children =>
        depth_dec ;;;
        visitFields (visit_fuel fuel') children ;;;
        depth_inc
    | ListArr _ offsets values => visitList (visit_fuel fuel') arr offsets values
    | FixedSizeListArr _ offsets values => visitList (visit_fuel fuel') arr offsets values
    | UnknownArr _ => throw UnknownArray
    end
  end.

(** The depth budget bounds the recursion, so it is all the fuel needed. *)
Definition visit (arr : Array) : M St unit :=
  w <- gets enc ;;
  visit_fuel (Z.to_nat (depth w)) arr.

(** The loop over the columns of the record (writer.go:159-164); the index
    and the name of the column, which only fill the message of the wrapped
    error, are left out. *)
Fixpoint visitColumns (cols : list Array) : M St unit :=
  match cols with
  | [] => ret tt
  | col :: cols' =>
      wrapErr "arrow/ipc: could not encode column %d (%q)" (visit col) ;;;
      visitColumns cols'
  end.

(** The second pass over the body (writer.go:172-187): the metadata of
    every buffer and the final running offset. *)
Fixpoint layout (bufs : list (option Buffer)) (offset : Z)
  : list bufferMetadata * Z :=
  match bufs with
  | [] => ([], offset)
  | buf :: rest =>
      let size :=
        match buf with Some b => Z.of_nat (length (buf_bytes b)) | None => 0 end in
      let padding :=
        match buf with
        | Some _ => Int64.sub (bitutil.CeilByte64 size) size
        | None => 0
        end in
      let '(ms, offset') := layout rest (Int64.add offset (Int64.add size padding)) in
      (mkBufferMetadata offset (Int64.add size padding) :: ms, offset')
  end.

Definition set_meta (ms : list bufferMetadata) (s : St) : St :=
  let w := enc s in
  mkSt (mkRecordEncoder (fields w) ms (depth w) (start w) (allow64b w))
       (pay s) (refs s) (views s).
Definition set_size (n : Z) (s : St) : St :=
  let p := pay s in
  mkSt (enc s) (mkPayload (msg p) (pmeta p) (body p) n) (refs s) (views s).
Definition set_pmeta (h : list byte) (s : St) : St :=
  let p := pay s in
  mkSt (enc s) (mkPayload (msg p) (Some h) (body p) (size p)) (refs s) (views s).

(** writer.go, [recordEncoder.encodeMetadata]. *)
Definition encodeMetadata (nrows : Z) : M St unit :=
  w <- gets enc ;;
  p <- gets pay ;;
  modify (set_pmeta (writeRecordMessage nrows (size p) (fields w) (meta w))).

(** writer.go, [recordEncoder.Encode], on the columns and the number of
    rows of the record. *)
Definition Encode (columns : list Array) (nrows : Z) : M St unit :=
  visitColumns columns ;;;
  w <- gets enc ;;
  p <- gets pay ;;
  let '(ms, offset) := layout (body p) (start w) in
  modify (set_meta ms) ;;;
  modify (set_size (Int64.sub offset (start w))) ;;;
  p <- gets pay ;;
  if negb (bitutil.IsMultipleOf8 (size p)) then throw NotAligned
  else encodeMetadata nrows.

(** writer.go, [newRecordEncoder]. *)
Definition newRecordEncoder (startOffset maxDepth : Z) (allow64b : bool)
  : recordEncoder :=
  mkRecordEncoder [] [] maxDepth startOffset allow64b.
End Encoder.

(** ** The stream writer *)

(** [array.Record], as far as the writer consumes it. *)
Record Record_ (Schema : Type) : Type := mkRecord {
  rec_schema : option Schema;
  rec_columns : list Array;
  rec_nrows : Z
}.
Arguments mkRecord {Schema}.
Arguments rec_schema {Schema}.
Arguments rec_columns {Schema}.
Arguments rec_nrows {Schema}.

(** The [Writer].  The output stream [w] is shared with the payload writer
    [pw], whose own state is the position [pos]; [pw] is [None] when the Go
    field is nil. *)
Record Writer (Schema Sink : Type) : Type := mkWriter {
  w_sink : Sink;
  pw : option Z;
  started : bool;
  schema : option Schema
}.
Arguments mkWriter {Schema Sink}.
Arguments w_sink {Schema Sink}.
Arguments pw {Schema Sink}.
Arguments started {Schema Sink}.
Arguments schema {Schema Sink}.

(** What the writer's methods read and write: the writer itself and the
    memory shared with the arrays of the records. *)
Record Stream (Schema Sink : Type) : Type := mkStream {
  writer : Writer Schema Sink;
  s_refs : refcounts;
  s_views : nat
}.
Arguments mkStream {Schema Sink}.
Arguments writer {Schema Sink}.
Arguments s_refs {Schema Sink}.
Arguments s_views {Schema Sink}.

Section WriterDefs.
Context {Schema Sink : Type}.

(** [Schema.Equal] of package [arrow], structural equality with a possibly nil
    schema. *)
Variable Schema_Equal : Schema -> option Schema -> bool.

(** The [io.Writer] behind the stream: the bytes offered, the count and
    error returned, the new state of the sink. *)
Variable io_Write : Sink -> list byte -> Z * option error * Sink.

(** Constants and functions of package [ipc] declared outside [writer.go]. *)
Variable kEOS : list byte.
Variable kMaxNestingDepth : Z.
Variable kArrowAlignment : Z.
Variable payloadsFromSchema : option Schema -> list payload.
Variable writeIPCPayload : Sink * Z -> payload -> Z * option error * (Sink * Z).
Variable NewSlice : Array -> Z -> Z -> option Array.
Variable writeRecordMessage :
  Z -> Z -> list fieldMetadata -> list bufferMetadata -> list byte.

Abbreviation Stream := (Stream Schema Sink).
Abbreviation Writer := (Writer Schema Sink).
Abbreviation Record_ := (Record_ Schema).

Definition set_writer (f : Writer -> Writer) (s : Stream) : Stream :=
  mkStream (f (writer s)) (s_refs s) (s_views s).

(** writer.go, [swriter.Write], on the sink and position of the
    [swriter]. *)
Definition swriter_Write (sw : Sink * Z) (p : list byte)
  : Z * option error * (Sink * Z) :=
  let '(n, err, sink') := io_Write (fst sw) p in
  (n, err, (sink', Int64.add (snd sw) n)).

(** Calling a method of the payload writer [w.pw]: a nil interface value
    panics; otherwise the method runs on the [swriter] and its error, if
    any, is returned. *)
Definition with_pw (method : Sink * Z -> Z * option error * (Sink * Z))
  : M Stream unit :=
  fun s =>
    let w := writer s in
    match pw w with
    | None => (Panic NilDereference, s)
    | Some pos =>
        let '(_, err, (sink', pos')) := method (w_sink w, pos) in
        let s' := set_writer (fun w => mkWriter sink' (Some pos') (started w) (schema w)) s in
        match err with
        | Some e => (Err e, s')
        | None => (Ok tt, s')
        end
    end.

(** writer.go, [swriter.Close] and [swriter.write]. *)
Definition swriter_Close : M Stream unit :=
  with_pw (fun sw => swriter_Write sw kEOS).
Definition swriter_write (p : payload) : M Stream unit :=
  with_pw (fun sw => writeIPCPayload sw p).

(** writer.go, [Writer.Close]. *)
Definition Close : M Stream unit :=
  w <- gets writer ;;
  if is_nil (pw w) then ret tt
  else
    wrapErr "arrow/ipc: could not close payload writer" swriter_Close ;;;
    modify (set_writer (fun w => mkWriter (w_sink w) None (started w) (schema w))).

(** Modelled from the spec: [payload.Release] is defined in another file
    of package [ipc]; "the payload's release ... releases every retained
    body buffer". *)
Definition payload_Release (p : payload) (s : Stream) : Stream :=
  mkStream (writer s) (releaseAll (body p) (s_refs s)) (s_views s).

Definition payloads_Release (ps : list payload) (s : Stream) : Stream :=
  foldl (fun s p => payload_Release p s) s ps.

(** The loop of [Writer.start] (writer.go:126-131). *)
Fixpoint writePayloads (ps : list payload) : M Stream unit :=
  match ps with
  | [] => ret tt
  | data :: ps' => swriter_write data ;;; writePayloads ps'
  end.

(** writer.go, [Writer.start]. *)
Definition Writer_start : M Stream unit :=
  modify (set_writer (fun w => mkWriter (w_sink w) (pw w) true (schema w))) ;;;
  w <- gets writer ;;
  let ps := payloadsFromSchema (schema w) in
  defer (payloads_Release ps) (writePayloads ps).

(** Running the encoder on the memory of the stream: the encoder and the
    payload are locals of [Write]; the reference counts and the live
    views are shared. *)
Definition run_Encode (rec : Record_) (s : Stream) : outcome unit * St :=
  let data := mkPayload MessageRecordBatch None [] 0 in
  let enc := newRecordEncoder 0 kMaxNestingDepth true in
  Encode kArrowAlignment NewSlice writeRecordMessage
    (rec_columns rec) (rec_nrows rec)
    (mkSt enc data (s_refs s) (s_views s)).

Definition sync (st : St) (s : Stream) : Stream :=
  mkStream (writer s) (refs st) (views st).

(** The schema check of [Write] (writer.go:100-101): the schema of the
    record is not nil and equals the schema bound to the writer. *)
Definition sameSchema (rec : Record_) (w : Writer) : bool :=
  match rec_schema rec with
  | None => false
  | Some sc => Schema_Equal sc (schema w)
  end.

(** The first statement of [Write] (writer.go:93-98). *)
Definition startIfNeeded : M Stream unit :=
  w <- gets writer ;;
  if negb (started w) then Writer_start else ret tt.

(** The rest of [Write] once the schema is accepted (writer.go:105-116):
    the record is encoded into a fresh payload, the payload is written, and
    the deferred [data.Release()] runs however the function is left. *)
Definition encodeAndWrite (rec : Record_) : M Stream unit :=
  fun s =>
    let '(r, st) := run_Encode rec s in
    let data := pay st in
    defer (payload_Release data)
      (match r with
       | Ok _ => swriter_write data
       | Err e => fail (Wrap "arrow/ipc: could not encode record to payload" e)
       | Panic p => throw p
       | OutOfFuel => timeout
       end) (sync st s).

(** writer.go, [Writer.Write]. *)
Definition Write (rec : Record_) : M Stream unit :=
  startIfNeeded ;;;
  w <- gets writer ;;
  if negb (sameSchema rec w) then fail errInconsistentSchema
  else encodeAndWrite rec.

(** writer.go, [NewWriter]; the configured schema may be nil. *)
Definition NewWriter (sink : Sink) (sc : option Schema) : Writer :=
  mkWriter sink (Some 0) false sc.
End WriterDefs.

(** ** A concrete environment

    An in-memory sink that never fails, schemas as lists of field names, and
    simple stand-ins for the functions of packages [array] and [ipc] that
    the writer calls; they instantiate the parameters of the sections above
    on concrete inputs. *)

Module Demo.
Definition Schema : Type := list string.

Definition Schema_Equal (a : Schema) (b : option Schema) : bool :=
  match b with
  | Some b => bool_decide (a = b)
  | None => false
  end.

Definition Sink : Type := list byte.

Definition io_Write (s : Sink) (p : list byte) : Z * option error * Sink :=
  (Z.of_nat (length p), None, s ++ p).

Definition kEOS : list byte := [x00; x00; x00; x00].
Definition kMaxNestingDepth : Z := 64.
Definition kArrowAlignment : Z := 8.

Definition schemaHeader : list byte := [x01; x00; x00; x00].

Definition payloadsFromSchema (sc : option Schema) : list payload :=
  [mkPayload MessageSchema (Some schemaHeader) [] 0].

Definition bufferBytes (b : option Buffer) : list byte :=
  match b with
  | Some b =>
      buf_bytes b ++
      repeat x00 (Z.to_nat (bitutil.CeilByte64 (Z.of_nat (length (buf_bytes b))))
                  - length (buf_bytes b))%nat
  | None => []
  end.

Definition payloadBytes (p : payload) : list byte :=
  match pmeta p with Some h => h | None => [] end ++ concat (map bufferBytes (body p)).

Definition writeIPCPayload (sw : Sink * Z) (p : payload) : Z * option error * (Sink * Z) :=
  let bytes := payloadBytes p in
  (Z.of_nat (length bytes), None, (fst sw ++ bytes, snd sw + Z.of_nat (length bytes))).

Definition with_data (f : Data -> Data) (a : Array) : Array :=
  match a with
  | NullArr d => NullArr (f d)
  | BooleanArr d => BooleanArr (f d)
  | FixedWidthArr w d => FixedWidthArr w (f d)
  | BinaryArr d vb => BinaryArr (f d) vb
  | StringArr d vo => StringArr (f d) vo
  | StructArr d cs => StructArr (f d) cs
  | ListArr d os v => ListArr (f d) os v
  | FixedSizeListArr d os v => FixedSizeListArr (f d) os v
  | UnknownArr d => UnknownArr (f d)
  end.

(** Modelled from the spec: [array.NewSlice] makes "a new lightweight Array
    view over the same buffer, offset-adjusted"; the view is [arr[i:j]]. *)
Definition NewSlice (arr : Array) (i j : Z) : option Array :=
  if (i <? 0) || (j <? i) || (Array_Len arr <? j) then None
  else Some (with_data
               (fun d => mkData (j - i) (data_nulls d) (data_offset d + i) (data_buffers d))
               arr).

Definition writeRecordMessage (nrows bodySize : Z)
    (fs : list fieldMetadata) (ms : list bufferMetadata) : list byte :=
  [x02; x00; x00; x00].

Definition zeros (addr : positive) (n : nat) : option Buffer :=
  Some (mkBuffer addr (repeat x00 n)).

(** Five [int32] values without nulls. *)
Definition int32x5 (addr : positive) : Array :=
  FixedWidthArr 32 (mkData 5 0 0 [None; zeros addr 20]).

(** A tower of [n] struct arrays around a column of [int32]. *)
Fixpoint tower (n : nat) : Array :=
  match n with
  | O => int32x5 1
  | S n' => StructArr (mkData 5 0 0 [None]) [tower n']
  end.

(** A list array of one list holding both values of its child. *)
Definition int32x2 : Array :=
  FixedWidthArr 32 (mkData 2 0 0 [None; zeros 2 8]).
Definition wholeList : Array :=
  ListArr (mkData 1 0 0 [None; zeros 3 8]) [0; 2] int32x2.

(** Five [int32] values, one of them null, with a validity bitmap kept in a
    buffer of 64 bytes where one byte would do. *)
Definition int32x5_nulls : Array :=
  FixedWidthArr 32 (mkData 5 1 0 [zeros 4 64; zeros 1 20]).

(** Rows 1 to 3 of a struct array of five rows, one of them null: a view
    at physical offset 1 over the validity bitmap of the whole array. *)
Definition slicedStruct : Array :=
  StructArr (mkData 3 1 1 [zeros 4 64]) [int32x5 1].

(** Three values of a string column without nulls. *)
Definition strings3 : Array :=
  StringArr (mkData 3 0 0 [None; zeros 5 16; zeros 6 6]) [0; 1; 3; 6].
Definition strings3_sliced : Array :=
  StringArr (mkData 2 0 1 [None; zeros 5 16; zeros 6 6]) [0; 1; 3; 6].

(** Four booleans without nulls, and a list array of one list holding the
    second and the third of them: its first offset is 1. *)
Definition bools4 : Array :=
  BooleanArr (mkData 4 0 0 [None; zeros 2 8]).
Definition shiftedList : Array :=
  ListArr (mkData 1 0 0 [None; zeros 3 8]) [1; 3] bools4.

(** A struct array of a view of a string column at physical offset 1 and of
    a tower of 64 structs: 66 levels. *)
Definition deepView : Array :=
  StructArr (mkData 2 0 0 [None]) [strings3_sliced; tower 64].

Definition heap0 : refcounts :=
  list_to_map [(1%positive, 1); (2%positive, 1); (3%positive, 1);
               (4%positive, 1); (5%positive, 1); (6%positive, 1)].

Definition st0 (maxDepth : Z) : St :=
  mkSt (newRecordEncoder 0 maxDepth true) (mkPayload MessageRecordBatch None [] 0)
       heap0 0.

Definition schemaA : Schema := ["a"%string].
Definition schemaB : Schema := ["b"%string].

Definition stream0 : Stream Schema Sink :=
  mkStream (NewWriter [] (Some schemaA)) heap0 0.

(** The same stream once the schema header has been written. *)
Definition stream1 : Stream Schema Sink :=
  mkStream (mkWriter schemaHeader (Some 4) true (Some schemaA)) heap0 0.

Definition recA (cols : list Array) : Record_ Schema := mkRecord (Some schemaA) cols 5.
Definition recB (cols : list Array) : Record_ Schema := mkRecord (Some schemaB) cols 5.

Definition threeColumns : list Array := [int32x5 1; int32x5 1; strings3].

Definition Write :=
  Write Schema_Equal kMaxNestingDepth kArrowAlignment payloadsFromSchema
        writeIPCPayload NewSlice writeRecordMessage.
Definition Close := @Close Schema Sink io_Write kEOS.
Definition visit := visit kArrowAlignment NewSlice.
Definition Encode := Encode kArrowAlignment NewSlice writeRecordMessage.

End Demo.

(** ** Vocabulary of the specification *)

(** "A buffer's logical byte length rounded up to the next 8-byte
    boundary". *)
Definition roundUp8 (n : Z) : Z := 8 * ((n + 7) / 8).

(** The byte length of a body entry, "nil buffers contributing 0". *)
Definition bufLen (b : option Buffer) : Z :=
  match b with
  | Some b => Z.of_nat (length (buf_bytes b))
  | None => 0
  end.

Definition sumLen (ms : list bufferMetadata) : Z :=
  foldr (fun m acc => bm_Len m + acc) 0 ms.

Definition sumPadded (bs : list (option Buffer)) : Z :=
  foldr (fun b acc => roundUp8 (bufLen b) + acc) 0 bs.

(** "Offsets forming a running total from the base offset". *)
Fixpoint runningTotal (base : Z) (ms : list bufferMetadata) : Prop :=
  match ms with
  | [] => True
  | m :: ms' => bm_Offset m = base /\ runningTotal (base + bm_Len m) ms'
  end.

(** "The range of child values designated by the offsets is a strict
    sub-range of the child array's full length". *)
Definition strictSubRange (values_length : Z) (values : Array) : Prop :=
  values_length < Array_Len values.

(** The reference counts once the payload under construction is released:
    what the buffers are left with when the payload is given up. *)
Definition balance (s : St) : refcounts := releaseAll (body (pay s)) (refs s).

(** Slicing an array keeps its type, hence its nesting. *)
Definition keepsNesting (NewSlice : Array -> Z -> Z -> option Array) : Prop :=
  forall a i j v, NewSlice a i j = Some v -> nesting v = nesting a.

(** What [visit] guarantees about the state [s'] it leaves, started in [s]
    with [fuel] on an array of nesting [n]: whatever the outcome, the live
    views, [allow64b] and [start] are as before; a return (success or
    error) leaves every buffer with the references it had, counting the
    payload's; the only errors are the two of the prologue; [visit] never
    raises the alignment panic of [Encode]; and, the depth budget being a
    non-negative [int64], success restores it and happens only within it,
    and the fuel runs out only if it is less than the budget. *)
Definition visit_post (keeps : Prop) (fuel n : nat) (s : St)
    (r : outcome unit) (s' : St) : Prop :=
  views s' = views s /\
  allow64b (enc s') = allow64b (enc s) /\
  start (enc s') = start (enc s) /\
  match r with
  | Ok _ =>
      balance s' = balance s /\
      (0 <= depth (enc s) <= Int64.max_int ->
       depth (enc s') = depth (enc s) /\
       (keeps -> Z.of_nat n <= depth (enc s)))
  | Err e =>
      balance s' = balance s /\
      (Cause e = errMaxRecursion \/
       (Cause e = errBigArray /\ allow64b (enc s) = false))
  | Panic p => p <> NotAligned
  | OutOfFuel =>
      0 <= depth (enc s) <= Int64.max_int ->
      (fuel < Z.to_nat (depth (enc s)))%nat
  end.

(** What [Encode] guarantees about the state [s'] it leaves, started in
    [s] on columns of nesting at most [n]: on success the metadata and the
    size are those of the second pass over the final body, and the columns
    are within the depth budget; a return leaves every buffer with the
    references it had, counting the payload's; the only errors are those
    of [visit]; the alignment panic is never raised; and the fuel never
    runs out when the depth budget is a non-negative [int64]. *)
Definition encode_post (keeps : Prop) (n : nat) (s : St)
    (r : outcome unit) (s' : St) : Prop :=
  views s' = views s /\
  start (enc s') = start (enc s) /\
  match r with
  | Ok _ =>
      balance s' = balance s /\
      meta (enc s') = fst (layout (body (pay s')) (start (enc s'))) /\
      size (pay s') =
        Int64.sub (snd (layout (body (pay s')) (start (enc s')))) (start (enc s')) /\
      (0 <= depth (enc s) <= Int64.max_int -> keeps -> Z.of_nat n <= depth (enc s))
  | Err e =>
      balance s' = balance s /\
      (Cause e = errMaxRecursion \/
       (Cause e = errBigArray /\ allow64b (enc s) = false))
  | Panic p => p <> NotAligned
  | OutOfFuel => ~ (0 <= depth (enc s) <= Int64.max_int)
  end.

(** The deepest nesting among the columns of a record. *)
Definition maxNesting (cols : list Array) : nat :=
  foldr (fun c acc => Nat.max (nesting c) acc) O cols.

(** A closed stream: the payload writer is gone. *)
Definition closed {Schema Sink : Type} (s : Stream Schema Sink) : Prop :=
  pw (writer s) = None.

(** Weakest preconditions for the state-and-outcome monad. *)
Definition wp {S A} (m : M S A) (Q : outcome A -> S -> Prop) (s : S) : Prop :=
  Q (fst (m s)) (snd (m s)).

(** ** Vocabulary of the traversal and of the stream *)

(** One more reference for every entry of [bs], nil entries aside. *)
Definition retainAll (bs : list (option Buffer)) (h : refcounts) : refcounts :=
  foldl (fun h b => retain_addr b h) h bs.

(** Number of array nodes of a tree of arrays. *)
Fixpoint nodeCount (a : Array) : nat :=
  match a with
  | StructArr _ cs => S (foldr (fun c acc => (nodeCount c + acc)%nat) O cs)
  | ListArr _ _ v | FixedSizeListArr _ _ v => S (nodeCount v)
  | _ => 1%nat
  end.

(** Number of body entries of a tree of arrays: the validity entry of every
    node, and the entries of its type. *)
Fixpoint bufferCount (a : Array) : nat :=
  match a with
  | NullArr _ | BooleanArr _ | FixedWidthArr _ _ => 2%nat
  | BinaryArr _ _ | StringArr _ _ => 3%nat
  | StructArr _ cs => S (foldr (fun c acc => (bufferCount c + acc)%nat) O cs)
  | ListArr _ _ v | FixedSizeListArr _ _ v => S (S (bufferCount v))
  | UnknownArr _ => 1%nat
  end.

(** The same counts over the children of a struct or the columns of a
    record. *)
Definition nodeCounts (cs : list Array) : nat :=
  foldr (fun c acc => (nodeCount c + acc)%nat) O cs.
Definition bufferCounts (cs : list Array) : nat :=
  foldr (fun c acc => (bufferCount c + acc)%nat) O cs.

(** The view made by [array.NewSlice] is over the same buffers as the
    array, "offset-adjusted": it begins as many slots further as its first
    index says. *)
Definition offsetAdjusted (NewSlice : Array -> Z -> Z -> option Array) : Prop :=
  forall a i j v, NewSlice a i j = Some v ->
    data_offset (Array_Data v) = data_offset (Array_Data a) + i /\
    data_buffers (Array_Data v) = data_buffers (Array_Data a).

(** The two indices of [array.NewSlice] are a start and an end: the view
    [arr[i:j]] has [j - i] slots. *)
Definition slicesByIndex (NewSlice : Array -> Z -> Z -> option Array) : Prop :=
  offsetAdjusted NewSlice /\
  forall a i j v, NewSlice a i j = Some v -> Array_Len v = j - i.

(** Slicing an array keeps its type and its children, hence its counts. *)
Definition keepsShape (NewSlice : Array -> Z -> Z -> option Array) : Prop :=
  forall a i j v, NewSlice a i j = Some v ->
    nodeCount v = nodeCount a /\ bufferCount v = bufferCount a.

(** The validity entry of the node of [arr]: nil when the array has no
    nulls, otherwise the first buffer of the array, which is not nil. *)
Definition validitySlot (arr : Array) (v : option Buffer) : Prop :=
  if Array_NullN arr =? 0 then v = None
  else exists b, v = Some b /\ data_buffers (Array_Data arr) !! 0%nat = Some (Some b).

(** From [s] to [s'] the field metadata grew by [fs] and the body by [bs],
    and nothing else of the encoder's output changed. *)
Definition grows (s s' : St) (fs : list fieldMetadata) (bs : list (option Buffer))
  : Prop :=
  fields (enc s') = fields (enc s) ++ fs /\
  body (pay s') = body (pay s) ++ bs /\
  meta (enc s') = meta (enc s) /\
  msg (pay s') = msg (pay s) /\
  pmeta (pay s') = pmeta (pay s) /\
  size (pay s') = size (pay s) /\
  Forall (fun f => fm_Offset f = 0) fs.

(** What a traversal of [nf] nodes and [nb] body entries, nested [nest]
    deep, guarantees about the state [s'] it leaves, started in [s]:
    whatever the outcome it has only added entries; a return (success or
    error) has retained every buffer once per entry added; a success has
    added the entries counted, when slicing keeps the shape of arrays; and
    the recursion error tells that the nesting exceeds the depth budget,
    when slicing keeps the nesting of arrays. *)
Definition trav_post (keepsN keepsS : Prop) (nf nb nest : nat) (s : St)
    (r : outcome unit) (s' : St) : Prop :=
  exists fs bs,
    grows s s' fs bs /\
    match r with
    | Ok _ =>
        refs s' = retainAll bs (refs s) /\
        (keepsS -> length fs = nf /\ length bs = nb)
    | Err e =>
        refs s' = retainAll bs (refs s) /\
        (0 <= depth (enc s) <= Int64.max_int -> keepsN ->
         Cause e = errMaxRecursion -> depth (enc s) < Z.of_nat nest)
    | _ => True
    end.

(** The entries of the node of [arr] itself, at the positions where the
    traversal started. *)
Definition ownSlots (arr : Array) (s s' : St) : Prop :=
  fields (enc s') !! length (fields (enc s)) =
    Some (mkFieldMetadata (Array_Len arr) (Array_NullN arr) 0) /\
  exists v, body (pay s') !! length (body (pay s)) = Some v /\ validitySlot arr v.

(** What the visit of the array [arr] guarantees. *)
Definition node_post (keepsN keepsS : Prop) (arr : Array) (s : St)
    (r : outcome unit) (s' : St) : Prop :=
  trav_post keepsN keepsS (nodeCount arr) (bufferCount arr) (nesting arr) s r s' /\
  (r = Ok tt -> ownSlots arr s s').

(** From [s] to [s'] only the sink and the position of the payload writer
    may have changed. *)
Definition onlyWrote {Schema Sink : Type} (s s' : Stream Schema Sink) : Prop :=
  started (writer s') = started (writer s) /\
  schema (writer s') = schema (writer s) /\
  is_nil (pw (writer s')) = is_nil (pw (writer s)) /\
  s_refs s' = s_refs s /\
  s_views s' = s_views s.

(** The reference counts once the payloads [ps] are released. *)
Definition releasePayloads (ps : list payload) (h : refcounts) : refcounts :=
  foldl (fun h p => releaseAll (body p) h) h ps.

(** Writing payloads one after the other, up to the first failure. *)
Fixpoint writeAll {Sink : Type}
    (writeIPCPayload : Sink * Z -> payload -> Z * option error * (Sink * Z))
    (ps : list payload) (sw : Sink * Z) : option error * (Sink * Z) :=
  match ps with
  | [] => (None, sw)
  | p :: ps' =>
      let '(_, err, sw') := writeIPCPayload sw p in
      match err with
      | Some e => (Some e, sw')
      | None => writeAll writeIPCPayload ps' sw'
      end
  end.

(** * Properties *)

(** ** Machine arithmetic *)

Lemma wrap_in_range (z : Z) : Int64.in_range z -> Int64.wrap z = z.
Proof.
  unfold Int64.in_range, Int64.wrap, Int64.min_int, Int64.max_int.
  intros H. rewrite Z.mod_small; lia.
Qed.

Lemma wrap_mod8 (z : Z) : Int64.wrap z mod 8 = z mod 8.
Proof.
  unfold Int64.wrap.
  pose proof (Z.div_mod (z + 2 ^ 63) (2 ^ 64) ltac:(lia)) as H.
  replace ((z + 2 ^ 63) mod 2 ^ 64 - 2 ^ 63)
    with (z + (- (2 ^ 61) * ((z + 2 ^ 63) / 2 ^ 64)) * 8) by lia.
  apply Z_mod_plus_full.
Qed.

Lemma land_lnot7 (x : Z) : Z.land x (Z.lnot 7) = 8 * (x / 8).
Proof.
  rewrite <- Z.ldiff_land.
  change 7 with (Z.ones 3).
  rewrite Z.ldiff_ones_r by lia.
  rewrite Z.shiftl_mul_pow2, Z.shiftr_div_pow2 by lia.
  change (2 ^ 3) with 8. lia.
Qed.

Lemma CeilByte64_mod8 (n : Z) : bitutil.CeilByte64 n mod 8 = 0.
Proof.
  unfold bitutil.CeilByte64. rewrite land_lnot7.
  rewrite Z.mul_comm. apply Z_mod_mult.
Qed.

Lemma CeilByte64_roundUp8 (n : Z) :
  0 <= n <= Int64.max_int - 7 -> bitutil.CeilByte64 n = roundUp8 n.
Proof.
  intros H. unfold bitutil.CeilByte64, Int64.add, roundUp8.
  rewrite wrap_in_range, land_lnot7; [reflexivity|].
  unfold Int64.in_range, Int64.min_int, Int64.max_int in *. lia.
Qed.

Lemma IsMultipleOf8_mod (v : Z) : bitutil.IsMultipleOf8 v = true <-> v mod 8 = 0.
Proof.
  unfold bitutil.IsMultipleOf8. change 7 with (Z.ones 3).
  rewrite Z.land_ones by lia. change (2 ^ 3) with 8. apply Z.eqb_eq.
Qed.

Lemma roundUp8_bounds (n : Z) : n <= roundUp8 n < n + 8.
Proof. unfold roundUp8. pose proof (Z.div_mod (n + 7) 8 ltac:(lia)).
  pose proof (Z.mod_pos_bound (n + 7) 8 ltac:(lia)). lia. Qed.

Lemma roundUp8_mod8 (n : Z) : roundUp8 n mod 8 = 0.
Proof. unfold roundUp8. rewrite Z.mul_comm. apply Z_mod_mult. Qed.

(** ** Reference counts *)

Lemma release_retain (b : option Buffer) (h : refcounts) :
  release_addr b (retain_addr b h) = h.
Proof.
  destruct b as [b|]; simpl; [|reflexivity].
  rewrite alter_alter_eq. apply alter_id. intros x _. simpl. lia.
Qed.

Lemma release_retain_comm (a b : option Buffer) (h : refcounts) :
  release_addr a (retain_addr b h) = retain_addr b (release_addr a h).
Proof.
  destruct a as [a|], b as [b|]; simpl; try reflexivity.
  destruct (decide (buf_addr a = buf_addr b)) as [->|Hne].
  - rewrite !alter_alter_eq. apply alter_ext. intros x _. simpl. lia.
  - apply alter_alter_ne. exact Hne.
Qed.

Lemma releaseAll_snoc (bs : list (option Buffer)) (b : option Buffer) (h : refcounts) :
  releaseAll (bs ++ [b]) h = release_addr b (releaseAll bs h).
Proof. unfold releaseAll. rewrite foldl_app. reflexivity. Qed.

Lemma releaseAll_retain (bs : list (option Buffer)) (b : option Buffer) (h : refcounts) :
  releaseAll bs (retain_addr b h) = retain_addr b (releaseAll bs h).
Proof.
  revert h. induction bs as [|a bs IH]; intros h; simpl; [reflexivity|].
  rewrite release_retain_comm. apply IH.
Qed.

Lemma balance_retain_push (b : option Buffer) (s : St) :
  balance (push_body b (set_refs (retain_addr b) s)) = balance s.
Proof.
  unfold balance. simpl. rewrite releaseAll_snoc, releaseAll_retain.
  apply release_retain.
Qed.

Lemma balance_push_nil (s : St) : balance (push_body None s) = balance s.
Proof. unfold balance. simpl. rewrite releaseAll_snoc. reflexivity. Qed.

(** ** Rules of the weakest precondition *)

Lemma wp_bind {S A B} (m : M S A) (k : A -> M S B) Q s :
  wp m (fun r s' =>
          match r with
          | Ok a => wp (k a) Q s'
          | Err e => Q (Err e) s'
          | Panic p => Q (Panic p) s'
          | OutOfFuel => Q OutOfFuel s'
          end) s ->
  wp (bind m k) Q s.
Proof. unfold wp, bind. destruct (m s) as [[a|e|p|] s']; simpl; auto. Qed.

Lemma wp_mono {S A} (m : M S A) (Q Q' : outcome A -> S -> Prop) s :
  wp m Q s -> (forall r s', Q r s' -> Q' r s') -> wp m Q' s.
Proof. unfold wp. auto. Qed.

Lemma wp_wrapErr {S A} msg (m : M S A) Q s :
  wp m (fun r s' => Q (match r with Err e => Err (Wrap msg e) | _ => r end) s') s ->
  wp (wrapErr msg m) Q s.
Proof. unfold wp, wrapErr. destruct (m s) as [[a|e|p|] s']; simpl; auto. Qed.

Lemma wp_defer {S A} cleanup (m : M S A) Q s :
  wp m (fun r s' => Q r (cleanup s')) s -> wp (defer cleanup m) Q s.
Proof. unfold wp, defer. destruct (m s) as [r s']; simpl; auto. Qed.

Lemma wp_run {S A} (m : M S A) Q s r s' : m s = (r, s') -> wp m Q s -> Q r s'.
Proof. unfold wp. intros ->. auto. Qed.

(** ** The truncation policy *)

(** C4: [needTruncate] answers no for every nil buffer; for a buffer that
    is not nil it answers yes exactly when the offset is nonzero or the
    buffer is longer than the minimum length required. *)
Theorem needTruncate_spec (offset minLength : Z) :
  needTruncate offset None minLength = false /\
  forall b : Buffer,
    needTruncate offset (Some b) minLength = true <->
    (offset <> 0 \/ minLength < Z.of_nat (length (buf_bytes b))).
Proof.
  split; [reflexivity|]. intros b. simpl.
  rewrite orb_true_iff, negb_true_iff, Z.eqb_neq, Z.ltb_lt. tauto.
Qed.

(** On a nil input the guard of [newTruncatedBitmap] does not apply, and
    what follows panics. *)
Lemma newTruncatedBitmap_on_nil (kArrowAlignment offset length : Z) (s : St) :
  newTruncatedBitmap kArrowAlignment offset length None s =
    (Panic (if offset =? 0 then NilDereference else NotImplemented), s).
Proof.
  unfold newTruncatedBitmap, bind. simpl.
  destruct (offset =? 0); reflexivity.
Qed.

(** C10: on a nil input [newTruncatedBitmap] never returns a bitmap, absent
    or not.  Its guard lets only buffers that are not nil return early;
    past it, with a zero offset the length of the nil buffer is read, and
    with a nonzero offset the copy branch is taken before that. *)
Theorem newTruncatedBitmap_not_total (kArrowAlignment offset length : Z) (s : St) :
  (forall out, fst (newTruncatedBitmap kArrowAlignment offset length None s) <> Ok out) /\
  newTruncatedBitmap kArrowAlignment 0 length None s = (Panic NilDereference, s) /\
  (offset <> 0 ->
   newTruncatedBitmap kArrowAlignment offset length None s = (Panic NotImplemented, s)).
Proof.
  rewrite !newTruncatedBitmap_on_nil. repeat split.
  - intros out. simpl. discriminate.
  - intros H. apply Z.eqb_neq in H. rewrite H. reflexivity.
Qed.

(** A buffer that is not nil is retained and handed back as it is,
    whatever the offset and the length of the view. *)
Lemma newTruncatedBitmap_some (kArrowAlignment offset length : Z) (b : Buffer) (s : St) :
  newTruncatedBitmap kArrowAlignment offset length (Some b) s =
    (Ok (Some b), set_refs (retain_addr (Some b)) s).
Proof. reflexivity. Qed.

(** C2, on two arrays with one null each.  [Demo.int32x5_nulls] has a
    validity buffer of 64 bytes for 5 slots; [Demo.slicedStruct] is a view
    at physical offset 1.  For both the truncation policy asks for a copy,
    yet [visit] succeeds and the validity slot of the body is the whole
    buffer, retained once more. *)
Theorem visit_retains_oversized_bitmap :
  needTruncate 0 (Demo.zeros 4 64)
    (paddedLength (bitutil.BytesForBits 5) Demo.kArrowAlignment) = true /\
  fst (Demo.visit Demo.int32x5_nulls (Demo.st0 64)) = Ok tt /\
  body (pay (snd (Demo.visit Demo.int32x5_nulls (Demo.st0 64)))) =
    [Demo.zeros 4 64; Demo.zeros 1 20] /\
  refs (snd (Demo.visit Demo.int32x5_nulls (Demo.st0 64))) !! 4%positive = Some 2 /\
  needTruncate 1 (Demo.zeros 4 64)
    (paddedLength (bitutil.BytesForBits 3) Demo.kArrowAlignment) = true /\
  fst (Demo.visit Demo.slicedStruct (Demo.st0 64)) = Ok tt /\
  body (pay (snd (Demo.visit Demo.slicedStruct (Demo.st0 64)))) =
    [Demo.zeros 4 64; None; Demo.zeros 1 20].
Proof. vm_compute. repeat split. Qed.

(** C5: on an array that bears an offsets buffer, [getZeroBasedValueOffsets]
    retains that buffer and returns it as it is when the physical offset is
    0, and panics with "not implemented" when it is not: no buffer is
    returned then. *)
Theorem getZeroBasedValueOffsets_spec (arr : Array) (b : Buffer) (s : St) :
  data_buffers (Array_Data arr) !! 1%nat = Some (Some b) ->
  (data_offset (Array_Data arr) = 0 ->
   getZeroBasedValueOffsets arr s =
     (Ok (Some b), set_refs (alter Z.succ (buf_addr b)) s)) /\
  (data_offset (Array_Data arr) <> 0 ->
   getZeroBasedValueOffsets arr s =
     (Panic (NotImplementedOffset (data_offset (Array_Data arr))), s)).
Proof.
  intros Hb. unfold getZeroBasedValueOffsets, bind, index.
  change (1 <? 0) with false. change (Z.to_nat 1) with 1%nat. cbv iota.
  rewrite Hb. simpl. split; intros H.
  - rewrite H. reflexivity.
  - apply Z.eqb_neq in H. rewrite H. reflexivity.
Qed.

(** The statement of C5 on a string column and on a view of it at physical
    offset 1. *)
Lemma getZeroBasedValueOffsets_witness :
  getZeroBasedValueOffsets Demo.strings3 (Demo.st0 64) =
    (Ok (Demo.zeros 5 16), set_refs (alter Z.succ 5%positive) (Demo.st0 64)) /\
  getZeroBasedValueOffsets Demo.strings3_sliced (Demo.st0 64) =
    (Panic (NotImplementedOffset 1), Demo.st0 64).
Proof.
  split.
  - exact (proj1 (getZeroBasedValueOffsets_spec Demo.strings3
                    (mkBuffer 5 (repeat x00 16)) (Demo.st0 64) eq_refl) eq_refl).
  - refine (proj2 (getZeroBasedValueOffsets_spec Demo.strings3_sliced
                     (mkBuffer 5 (repeat x00 16)) (Demo.st0 64) eq_refl) _).
    simpl. lia.
Defined.

(** ** Weakest preconditions of the encoder's building blocks *)

Lemma wp_index {S A} (xs : list A) (i : Z) (Q : outcome A -> S -> Prop) s :
  Q (Panic IndexOutOfRange) s -> (forall x, Q (Ok x) s) -> wp (index xs i) Q s.
Proof.
  intros Hp Hok. unfold wp, index.
  destruct (i <? 0); [exact Hp|]. destruct (xs !! Z.to_nat i); [apply Hok|exact Hp].
Qed.

Lemma wp_Buffer_Retain (b : option Buffer) (Q : outcome unit -> St -> Prop) s :
  Q (Panic NilDereference) s ->
  Q (Ok tt) (set_refs (retain_addr b) s) ->
  wp (Buffer_Retain b) Q s.
Proof. intros Hp Hok. destruct b; [exact Hok|exact Hp]. Qed.

Lemma wp_newTruncatedBitmap k offset length input (Q : outcome (option Buffer) -> St -> Prop) s :
  (forall p, p <> NotAligned -> Q (Panic p) s) ->
  Q (Ok input) (set_refs (retain_addr input) s) ->
  wp (newTruncatedBitmap k offset length input) Q s.
Proof.
  intros Hp Hok. destruct input as [b|].
  - exact Hok.
  - unfold wp. rewrite newTruncatedBitmap_on_nil. apply Hp.
    destruct (offset =? 0); discriminate.
Qed.

Lemma wp_getZeroBasedValueOffsets arr (Q : outcome (option Buffer) -> St -> Prop) s :
  (forall p, p <> NotAligned -> Q (Panic p) s) ->
  (forall v, Q (Ok v) (set_refs (retain_addr v) s)) ->
  wp (getZeroBasedValueOffsets arr) Q s.
Proof.
  intros Hp Hok. unfold getZeroBasedValueOffsets.
  apply wp_bind, wp_index; [apply Hp; discriminate|]. intros v.
  destruct (negb _); [apply Hp; discriminate|].
  apply wp_bind, wp_Buffer_Retain; [apply Hp; discriminate|apply Hok].
Qed.

Lemma wp_retainOrCopy offset values minLength (Q : outcome unit -> St -> Prop) s :
  (forall p, p <> NotAligned -> Q (Panic p) s) ->
  Q (Ok tt) (set_refs (retain_addr values) s) ->
  wp (retainOrCopy offset values minLength) Q s.
Proof.
  intros Hp Hok. unfold retainOrCopy.
  destruct (needTruncate _ _ _); [apply Hp; discriminate|].
  apply wp_Buffer_Retain; [apply Hp; discriminate|exact Hok].
Qed.

Lemma wp_valuesRange voffsets offsets len (Q : outcome (Z * Z) -> St -> Prop) s :
  Q (Panic IndexOutOfRange) s -> (forall r, Q (Ok r) s) ->
  wp (valuesRange voffsets offsets len) Q s.
Proof.
  intros Hp Hok. unfold valuesRange. destruct (negb _); [|apply Hok].
  apply wp_bind, wp_index; [exact Hp|]. intros o0.
  apply wp_bind, wp_index; [exact Hp|]. intros on. apply Hok.
Qed.

Lemma maxNesting_ge (cols : list Array) (c : Array) :
  In c cols -> (nesting c <= maxNesting cols)%nat.
Proof.
  unfold maxNesting. induction cols as [|a cols IH]; cbn [foldr In]; [tauto|].
  intros [->|H]; [apply Nat.le_max_l|].
  specialize (IH H). etransitivity; [exact IH|apply Nat.le_max_r].
Qed.

Local Arguments Int64.add : simpl never.
Local Arguments Int64.sub : simpl never.
Local Arguments Int64.mul : simpl never.

Section EncoderFacts.
Variable kArrowAlignment : Z.
Variable NewSlice : Array -> Z -> Z -> option Array.

Local Abbreviation visit_fuel' := (visit_fuel kArrowAlignment NewSlice).
Local Abbreviation visit' := (visit kArrowAlignment NewSlice).
Local Abbreviation sliceValues' := (sliceValues NewSlice).
Local Abbreviation post := (visit_post (keepsNesting NewSlice)).

Lemma wp_sliceValues offsets values vo vl (Q : outcome (Array * bool) -> St -> Prop) s :
  Q (Panic IndexOutOfRange) s ->
  (forall v, NewSlice values vo vl = Some v -> Q (Ok (v, true)) (set_views S s)) ->
  Q (Ok (values, false)) s ->
  wp (sliceValues' offsets values vo vl) Q s.
Proof.
  intros Hp Hs Hn. unfold sliceValues.
  destruct (mustSlice _ _ _); [|exact Hn].
  apply wp_bind. unfold array_NewSlice.
  destruct (NewSlice values vo vl) as [v|] eqn:E; [|exact Hp].
  apply wp_bind. apply Hs. reflexivity.
Qed.

Ltac wp_step :=
  lazymatch goal with
  | |- wp (bind _ _) _ _ => apply wp_bind
  | |- wp (wrapErr _ _) _ _ => apply wp_wrapErr
  | |- wp (defer _ _) _ _ => apply wp_defer
  | |- wp (ret ?a) ?Q ?s => change (Q (Ok a) s)
  | |- wp (modify ?f) ?Q ?s => change (Q (Ok tt) (f s))
  | |- wp (gets ?f) ?Q ?s => change (Q (Ok (f s)) s)
  | |- wp (fail ?e) ?Q ?s => change (Q (Err e) s)
  | |- wp (throw ?p) ?Q ?s => change (Q (Panic p) s)
  | |- wp timeout ?Q ?s => change (Q OutOfFuel s)
  | |- wp depth_dec _ _ => unfold depth_dec
  | |- wp depth_inc _ _ => unfold depth_inc
  | |- wp (index _ _) _ _ => apply wp_index; [|intros ?]
  | |- wp (newTruncatedBitmap _ _ _ _) _ _ =>
      apply wp_newTruncatedBitmap; [intros ? ?|]
  | |- wp (getZeroBasedValueOffsets _) _ _ =>
      apply wp_getZeroBasedValueOffsets; [intros ? ?|intros ?]
  | |- wp (retainOrCopy _ _ _) _ _ => apply wp_retainOrCopy; [intros ? ?|]
  | |- wp (valuesRange _ _ _) _ _ => apply wp_valuesRange; [|intros ?]
  | |- wp (if ?c then _ else _) _ _ => destruct c eqn:?
  end; cbv beta iota.

Lemma balance_two (a b : option Buffer) (s : St) :
  balance (push_body b (push_body a (set_refs (retain_addr b) (set_refs (retain_addr a) s))))
  = balance s.
Proof.
  unfold balance. simpl. rewrite !releaseAll_snoc, !releaseAll_retain.
  rewrite (release_retain_comm a b), release_retain. apply release_retain.
Qed.

(** The loop over the fields of a struct inherits the guarantees of the
    visits it makes. *)
Lemma visitFields_post (n : nat) :
  (forall arr s, wp (visit_fuel' n arr) (post n (nesting arr) s) s) ->
  forall cs s,
    wp (visitFields (visit_fuel' n) cs)
       (post n (foldr (fun c acc => Nat.max (nesting c) acc) O cs) s) s.
Proof.
  intros IH cs. induction cs as [|c cs IHcs]; intros s; simpl.
  - wp_step. unfold visit_post. repeat split; try reflexivity. intros _. simpl. lia.
  - wp_step. wp_step. eapply wp_mono; [apply IH|].
    intros r s1 (Hv & Ha & Hs & Hr). destruct r as [[]|e|p|].
    + destruct Hr as (Hb & Hdep).
      eapply wp_mono; [apply IHcs|].
      intros r s2 (Hv2 & Ha2 & Hs2 & Hr2). unfold visit_post.
      rewrite Ha, Hb, Hv, Hs in *.
      repeat split; try assumption.
      destruct r as [[]|e|p|]; try assumption.
      * destruct Hr2 as (Hb2 & Hdep2). split; [assumption|].
        intros Hd. destruct (Hdep Hd) as [E Hn]. rewrite E in Hdep2.
        destruct (Hdep2 Hd) as [E2 Hn2]. split; [assumption|].
        intros K. specialize (Hn K). specialize (Hn2 K). lia.
      * intros Hd. destruct (Hdep Hd) as [E Hn]. rewrite E in Hr2. auto.
    + unfold visit_post. simpl. tauto.
    + unfold visit_post. tauto.
    + unfold visit_post. tauto.
Qed.

Lemma depth_dec_inc (d : Z) :
  0 < d <= Int64.max_int ->
  Int64.sub d 1 = d - 1 /\ Int64.add (d - 1) 1 = d.
Proof.
  intros H. unfold Int64.sub, Int64.add.
  rewrite !wrap_in_range; unfold Int64.in_range, Int64.min_int, Int64.max_int in *; lia.
Qed.

Ltac post_leaf :=
  unfold visit_post; simpl;
  repeat (rewrite balance_two || rewrite balance_retain_push || rewrite balance_push_nil);
  repeat match goal with
         | |- _ /\ _ => split
         | |- _ -> _ => intros ?
         | H : (_ && _) = true |- _ => apply andb_prop in H as [? ?]
         | H : negb _ = true |- _ => apply negb_true_iff in H
         | H : (_ <=? 0) = true |- _ => apply Z.leb_le in H
         | H : (_ <=? 0) = false |- _ => apply Z.leb_gt in H
         end;
  try reflexivity; try assumption; try discriminate; try lia; auto.

(** The guarantees of [visit] mention the initial state only through the
    components they compare. *)
Lemma post_frame fuel n (s0 s1 : St) r s' :
  views s1 = views s0 ->
  allow64b (enc s1) = allow64b (enc s0) ->
  start (enc s1) = start (enc s0) ->
  balance s1 = balance s0 ->
  depth (enc s1) = depth (enc s0) ->
  post fuel n s1 r s' -> post fuel n s0 r s'.
Proof.
  unfold visit_post. intros Hv Ha Hs Hb Hd. rewrite Hv, Ha, Hs, Hb, Hd. tauto.
Qed.

Lemma visitStruct_post (n : nat) :
  (forall arr s, wp (visit_fuel' n arr) (post n (nesting arr) s) s) ->
  forall cs s, 0 < depth (enc s) ->
    wp (depth_dec ;;; visitFields (visit_fuel' n) cs ;;; depth_inc)
       (post (S n) (S (foldr (fun c acc => Nat.max (nesting c) acc) O cs)) s) s.
Proof.
  intros IH cs s Hpos.
  do 4 wp_step.
  eapply wp_mono; [apply (visitFields_post n IH)|].
  intros r s2 (Hv & Ha & Hs & Hr). cbn [depth enc set_depth views allow64b start] in *.
  destruct r as [[]|e|p|]; repeat wp_step; unfold visit_post;
    cbn [depth enc set_depth views allow64b start];
    change (balance (set_depth ?f ?s)) with (balance s) in *.
  - destruct Hr as (Hb & Hdep). repeat split; try assumption.
    all: destruct (depth_dec_inc (depth (enc s))) as [Hdec Hinc]; [lia|];
      rewrite Hdec in Hdep; destruct Hdep as [E Hn]; [lia|].
    + rewrite E. exact Hinc.
    + intros K. specialize (Hn K). lia.
  - tauto.
  - tauto.
  - repeat split; try assumption.
    intros Hd. destruct (depth_dec_inc (depth (enc s))) as [Hdec Hinc]; [lia|].
    rewrite Hdec in Hr. specialize (Hr ltac:(lia)). lia.
Qed.

Lemma balance_set_depth f s : balance (set_depth f s) = balance s.
Proof. reflexivity. Qed.
Lemma balance_set_views f s : balance (set_views f s) = balance s.
Proof. reflexivity. Qed.
Lemma balance_push_field fm s : balance (push_field fm s) = balance s.
Proof. reflexivity. Qed.

Ltac bal :=
  unfold Array_Release in *;
  repeat (rewrite balance_set_depth in * || rewrite balance_set_views in * ||
          rewrite balance_push_field in * || rewrite balance_two in * ||
          rewrite balance_retain_push in * || rewrite balance_push_nil in * ).

Lemma visitList_post (n : nat) :
  (forall arr s, wp (visit_fuel' n arr) (post n (nesting arr) s) s) ->
  forall arr offsets values s, 0 < depth (enc s) ->
    wp (visitList NewSlice (visit_fuel' n) arr offsets values)
       (post (S n) (S (nesting values)) s) s.
Proof.
  intros IH arr offsets values s Hpos.
  unfold visitList.
  repeat wp_step; try solve [post_leaf].
  apply wp_sliceValues; [post_leaf| |].
  - (* the child is a temporary view *)
    intros child Hslice. cbv beta iota. cbn [fst snd].
    do 3 wp_step. eapply wp_mono; [apply IH|].
    intros res s3 (Hv & Ha & Hs & Hr). simpl in Hv, Ha, Hs, Hr.
    destruct res as [[]|e|p|]; repeat wp_step; unfold visit_post;
      cbn [views enc depth allow64b start set_depth set_views releaseIf
           Array_Release push_body set_refs pay refs Cause];
      bal; rewrite Hv.
    + destruct Hr as (Hb & Hdep). repeat split; try assumption.
      all: destruct (depth_dec_inc (depth (enc s))) as [Hdec Hinc]; [lia|];
        rewrite Hdec in Hdep; destruct Hdep as [E Hn]; [lia|].
      * rewrite E. exact Hinc.
      * intros K. specialize (Hn K). rewrite (K _ _ _ _ Hslice) in Hn. lia.
    + repeat split; tauto.
    + repeat split; assumption.
    + repeat split; try assumption.
      intros Hd. destruct (depth_dec_inc (depth (enc s))) as [Hdec Hinc]; [lia|].
      rewrite Hdec in Hr. specialize (Hr ltac:(lia)). lia.
  - (* the child is the values array itself *)
    cbv beta iota. cbn [fst snd].
    do 3 wp_step. eapply wp_mono; [apply IH|].
    intros res s3 (Hv & Ha & Hs & Hr). simpl in Hv, Ha, Hs, Hr.
    destruct res as [[]|e|p|]; repeat wp_step; unfold visit_post;
      cbn [views enc depth allow64b start set_depth set_views releaseIf
           Array_Release push_body set_refs pay refs Cause];
      bal.
    + destruct Hr as (Hb & Hdep). repeat split; try assumption.
      all: destruct (depth_dec_inc (depth (enc s))) as [Hdec Hinc]; [lia|];
        rewrite Hdec in Hdep; destruct Hdep as [E Hn]; [lia|].
      * rewrite E. exact Hinc.
      * intros K. specialize (Hn K). lia.
    + repeat split; tauto.
    + repeat split; assumption.
    + repeat split; try assumption.
      intros Hd. destruct (depth_dec_inc (depth (enc s))) as [Hdec Hinc]; [lia|].
      rewrite Hdec in Hr. specialize (Hr ltac:(lia)). lia.
Qed.

(** The guarantees of [visit], for every fuel, array and state. *)
Lemma visit_fuel_post (fuel : nat) :
  forall arr s, wp (visit_fuel' fuel arr) (post fuel (nesting arr) s) s.
Proof.
  induction fuel as [|n IH]; intros arr s; cbn [visit_fuel].
  - repeat wp_step; solve [post_leaf].
  - repeat wp_step; try solve [post_leaf].
    all: match goal with H : (_ <=? 0) = false |- _ => apply Z.leb_gt in H end.
    all: destruct arr;
      lazymatch goal with
      | |- wp (bind depth_dec _) _ _ =>
          eapply wp_mono;
          [apply (visitStruct_post n IH); simpl; lia
          |intros r s' H; eapply post_frame; [..|exact H]; post_leaf]
      | |- wp (visitList _ _ _ _ _) _ _ =>
          eapply wp_mono;
          [apply (visitList_post n IH); simpl; lia
          |intros r s' H; eapply post_frame; [..|exact H]; post_leaf]
      | _ => repeat wp_step; solve [post_leaf]
      end.
Qed.

(** *** The top-level [visit] *)

Lemma visit_unfold arr s :
  visit' arr s = visit_fuel' (Z.to_nat (depth (enc s))) arr s.
Proof. reflexivity. Qed.

(** The depth budget is fuel enough: [visit] always produces an outcome
    of the Go function. *)
Lemma visit_post_holds arr s :
  wp (visit' arr) (post (Z.to_nat (depth (enc s))) (nesting arr) s) s.
Proof. unfold wp. rewrite visit_unfold. apply visit_fuel_post. Qed.

Lemma visitColumns_post cols :
  forall s,
    wp (visitColumns kArrowAlignment NewSlice cols)
       (post (Z.to_nat (depth (enc s)))
             (foldr (fun c acc => Nat.max (nesting c) acc) O cols) s) s.
Proof.
  induction cols as [|c cols IHcs]; intros s; simpl.
  - wp_step. unfold visit_post. repeat split; try reflexivity; simpl; lia.
  - wp_step. wp_step. eapply wp_mono; [apply visit_post_holds|].
    intros r s1 (Hv & Ha & Hs & Hr). destruct r as [[]|e|p|].
    + destruct Hr as (Hb & Hdep).
      eapply wp_mono; [apply IHcs|].
      intros r s2 (Hv2 & Ha2 & Hs2 & Hr2). unfold visit_post.
      rewrite Ha, Hb, Hv, Hs in *.
      repeat split; try assumption.
      destruct r as [[]|e|p|]; try assumption.
      * destruct Hr2 as (Hb2 & Hdep2). split; [assumption|].
        intros Hd. destruct (Hdep Hd) as [E Hn]. rewrite E in Hdep2.
        destruct (Hdep2 Hd) as [E2 Hn2]. split; [assumption|].
        intros K. specialize (Hn K). specialize (Hn2 K). lia.
      * intros Hd. destruct (Hdep Hd) as [E Hn]. rewrite E in Hr2. auto.
    + unfold visit_post. simpl. tauto.
    + unfold visit_post. tauto.
    + unfold visit_post. tauto.
Qed.

(** With a depth budget that is exhausted, [visit] returns at once. *)
Lemma visit_fuel_exhausted fuel arr s :
  depth (enc s) <= 0 -> visit_fuel' fuel arr s = (Err errMaxRecursion, s).
Proof.
  intros H. apply Z.leb_le in H.
  destruct fuel; cbn [visit_fuel]; unfold bind, gets; rewrite H; reflexivity.
Qed.

(** The depth budget is fuel enough: [visit] always produces an outcome
    of the Go function. *)
Lemma visit_total arr s :
  depth (enc s) <= Int64.max_int -> fst (visit' arr s) <> OutOfFuel.
Proof.
  intros Hmax. destruct (Z_le_gt_dec (depth (enc s)) 0) as [Hle|Hgt].
  { rewrite visit_unfold, visit_fuel_exhausted by assumption. discriminate. }
  pose proof (visit_post_holds arr s) as H. unfold wp, visit_post in H.
  destruct H as (_ & _ & _ & H). intros E. rewrite E in H.
  assert (0 <= depth (enc s) <= Int64.max_int) as Hd by lia.
  specialize (H Hd). lia.
Qed.

(** An array nested deeper than the depth budget is never visited to the
    end. *)
Lemma visit_too_deep_fails arr s :
  keepsNesting NewSlice ->
  depth (enc s) <= Int64.max_int ->
  depth (enc s) < Z.of_nat (nesting arr) ->
  forall u, fst (visit' arr s) <> Ok u.
Proof.
  intros K Hmax Hdeep u.
  destruct (Z_le_gt_dec (depth (enc s)) 0) as [Hle|Hgt].
  { rewrite visit_unfold, visit_fuel_exhausted by assumption. discriminate. }
  pose proof (visit_post_holds arr s) as H. unfold wp, visit_post in H.
  destruct H as (_ & _ & _ & H). intros E. rewrite E in H.
  destruct H as (_ & H). destruct H as [_ H]; [lia|]. specialize (H K). lia.
Qed.

(** The errors [visit] returns are those of its prologue, possibly
    wrapped. *)
Lemma visit_errors arr s e :
  fst (visit' arr s) = Err e ->
  Cause e = errMaxRecursion \/ (Cause e = errBigArray /\ allow64b (enc s) = false).
Proof.
  intros E. pose proof (visit_post_holds arr s) as H. unfold wp, visit_post in H.
  rewrite E in H. tauto.
Qed.

(** Unless a panic stops the traversal earlier, [visit] returns the
    recursion error on an array nested deeper than the depth budget. *)
Lemma visit_too_deep arr s :
  keepsNesting NewSlice ->
  allow64b (enc s) = true ->
  depth (enc s) <= Int64.max_int ->
  depth (enc s) < Z.of_nat (nesting arr) ->
  (forall p, fst (visit' arr s) <> Panic p) ->
  exists e, fst (visit' arr s) = Err e /\ Cause e = errMaxRecursion.
Proof.
  intros K Ha Hmax Hdeep Hnp.
  pose proof (visit_total arr s Hmax) as Ht.
  pose proof (visit_too_deep_fails arr s K Hmax Hdeep) as Hf.
  pose proof (visit_errors arr s) as He.
  destruct (fst (visit' arr s)) as [u|e|p|].
  - exfalso. exact (Hf u eq_refl).
  - exists e. split; [reflexivity|].
    destruct (He e eq_refl) as [H|[_ H]]; [exact H|congruence].
  - exfalso. exact (Hnp p eq_refl).
  - exfalso. exact (Ht eq_refl).
Qed.

(** *** The second pass *)

Lemma wrap_cong (z : Z) : exists k, Int64.wrap z = z + 8 * k.
Proof.
  unfold Int64.wrap.
  pose proof (Z.div_mod (z + 2 ^ 63) (2 ^ 64) ltac:(lia)) as H.
  exists (- (2 ^ 61) * ((z + 2 ^ 63) / 2 ^ 64)). lia.
Qed.

Lemma entry_cong (buf : option Buffer) :
  exists k,
    Int64.add (bufLen buf)
      (match buf with
       | Some _ => Int64.sub (bitutil.CeilByte64 (bufLen buf)) (bufLen buf)
       | None => 0
       end) = 8 * k.
Proof.
  destruct buf as [b|]; simpl.
  - unfold Int64.add at 1. unfold Int64.sub, bitutil.CeilByte64. rewrite land_lnot7.
    set (n := Z.of_nat (length (buf_bytes b))).
    set (q := Int64.add n 7 / 8).
    destruct (wrap_cong (8 * q - n)) as [k1 E1]. rewrite E1.
    destruct (wrap_cong (n + (8 * q - n + 8 * k1))) as [k2 E2]. rewrite E2.
    exists (q + k1 + k2). ring.
  - exists 0. reflexivity.
Qed.

Lemma layout_cong (bufs : list (option Buffer)) :
  forall offset, exists k, snd (layout bufs offset) = offset + 8 * k.
Proof.
  induction bufs as [|buf rest IH]; intros offset; simpl.
  - exists 0. lia.
  - fold (bufLen buf).
    match goal with
    | |- context [layout rest ?o] =>
        destruct (IH o) as [k E]; destruct (layout rest o) as [ms off'] eqn:L
    end.
    simpl in *. destruct (entry_cong buf) as [k1 E1].
    unfold Int64.add at 1 in E.
    match type of E with context [Int64.wrap ?z] => destruct (wrap_cong z) as [k2 E2] end.
    rewrite E2 in E. destruct buf; simpl in *; rewrite E1 in E; exists (k + k1 + k2); lia.
Qed.

(** The total body size computed by the second pass is a multiple of 8,
    whatever the buffers. *)
Lemma layout_size_mod8 (bufs : list (option Buffer)) (base : Z) :
  Int64.sub (snd (layout bufs base)) base mod 8 = 0.
Proof.
  destruct (layout_cong bufs base) as [k E]. rewrite E.
  unfold Int64.sub. rewrite wrap_mod8.
  replace (base + 8 * k - base) with (k * 8) by ring. apply Z_mod_mult.
Qed.

Lemma sumPadded_nonneg (bufs : list (option Buffer)) : 0 <= sumPadded bufs.
Proof.
  induction bufs as [|b bufs IH]; simpl; [lia|].
  pose proof (roundUp8_bounds (bufLen b)).
  assert (0 <= bufLen b) by (destruct b; simpl; lia). lia.
Qed.

(** Without overflow the second pass records, for every buffer, its length
    rounded up to a multiple of 8 at the running total of the lengths. *)
Lemma layout_exact (bufs : list (option Buffer)) :
  forall base,
    0 <= base -> base + sumPadded bufs <= Int64.max_int ->
    snd (layout bufs base) = base + sumPadded bufs /\
    sumLen (fst (layout bufs base)) = sumPadded bufs /\
    Forall2 (fun m b => bm_Len m = roundUp8 (bufLen b)) (fst (layout bufs base)) bufs /\
    runningTotal base (fst (layout bufs base)).
Proof.
  induction bufs as [|buf rest IH]; intros base H0 Hmax; simpl.
  - repeat split; [lia|constructor].
  - simpl in Hmax. fold (bufLen buf).
    pose proof (sumPadded_nonneg rest) as Hrest.
    pose proof (roundUp8_bounds (bufLen buf)) as Hr.
    assert (0 <= bufLen buf) as Hlen by (destruct buf; simpl; lia).
    assert (roundUp8 (bufLen buf) <= Int64.max_int - 7) as Hr7.
    { unfold roundUp8, Int64.max_int in *. lia. }
    assert (Int64.add (bufLen buf)
              (match buf with
               | Some _ => Int64.sub (bitutil.CeilByte64 (bufLen buf)) (bufLen buf)
               | None => 0
               end) = roundUp8 (bufLen buf)) as E.
    { destruct buf as [b|].
      - rewrite CeilByte64_roundUp8 by lia.
        unfold Int64.add, Int64.sub.
        rewrite (wrap_in_range (roundUp8 _ - _));
          [|unfold Int64.in_range, Int64.min_int, Int64.max_int in *; lia].
        rewrite wrap_in_range;
          [lia|unfold Int64.in_range, Int64.min_int, Int64.max_int in *; lia].
      - reflexivity. }
    rewrite E.
    assert (Int64.add base (roundUp8 (bufLen buf)) = base + roundUp8 (bufLen buf)) as E2.
    { unfold Int64.add. apply wrap_in_range.
      unfold Int64.in_range, Int64.min_int, Int64.max_int in *. lia. }
    rewrite E2.
    destruct (IH (base + roundUp8 (bufLen buf))) as (I1 & I2 & I3 & I4); [lia|lia|].
    destruct (layout rest (base + roundUp8 (bufLen buf))) as [ms off'].
    simpl in *. repeat split; try assumption; try lia.
    constructor; [reflexivity|assumption].
Qed.

(** *** [Encode] *)

Variable writeRecordMessage :
  Z -> Z -> list fieldMetadata -> list bufferMetadata -> list byte.

Lemma Encode_post_holds cols nrows s :
  wp (Encode kArrowAlignment NewSlice writeRecordMessage cols nrows)
     (encode_post (keepsNesting NewSlice) (maxNesting cols) s) s.
Proof.
  unfold Encode. wp_step.
  eapply wp_mono; [apply visitColumns_post|].
  intros r s1 (Hv & Ha & Hs & Hr). destruct r as [[]|e|p|].
  - destruct Hr as (Hb & Hdep). do 4 wp_step.
    destruct (layout (body (pay s1)) (start (enc s1))) as [ms off] eqn:L.
    do 7 wp_step.
    + exfalso. simpl in Heqb. apply negb_true_iff in Heqb.
      pose proof (layout_size_mod8 (body (pay s1)) (start (enc s1))) as Hm.
      rewrite L in Hm. simpl in Hm. apply IsMultipleOf8_mod in Hm. congruence.
    + unfold encodeMetadata. repeat wp_step.
      unfold encode_post. simpl. rewrite L. simpl. repeat split; try assumption.
      intros Hd K. destruct (Hdep Hd) as [_ Hn]. exact (Hn K).
  - unfold encode_post. tauto.
  - unfold encode_post. tauto.
  - unfold encode_post. repeat split; try assumption. intros Hd. specialize (Hr Hd). lia.
Qed.

(** ** The claims about the encoder *)

(** C6: for every record that [Encode] encodes successfully, the total
    body size of the payload is a multiple of 8; and when the offsets do
    not overflow an [int64], it is the sum of the lengths recorded in the
    buffer metadata, each of which is the byte length of its buffer (0 for
    a nil buffer) rounded up to the next multiple of 8, the offsets being
    the running totals from the base offset. *)
Theorem Encode_layout cols nrows s s' :
  Encode kArrowAlignment NewSlice writeRecordMessage cols nrows s = (Ok tt, s') ->
  size (pay s') mod 8 = 0 /\
  (0 <= start (enc s) ->
   start (enc s) + sumPadded (body (pay s')) <= Int64.max_int ->
   size (pay s') = sumLen (meta (enc s')) /\
   Forall2 (fun m b => bm_Len m = roundUp8 (bufLen b))
           (meta (enc s')) (body (pay s')) /\
   runningTotal (start (enc s)) (meta (enc s'))).
Proof.
  intros HE.
  pose proof (wp_run _ _ _ _ _ HE (Encode_post_holds cols nrows s)) as H.
  destruct H as (_ & Hs & _ & Hm & Hz & _).
  split.
  - rewrite Hz. apply layout_size_mod8.
  - intros H0 Hmax. rewrite <- Hs in *.
    destruct (layout_exact (body (pay s')) (start (enc s')) H0 Hmax)
      as (E1 & E2 & E3 & E4).
    rewrite Hz, Hm, E1, E2. repeat split; try assumption.
    unfold Int64.sub. pose proof (sumPadded_nonneg (body (pay s'))).
    rewrite wrap_in_range; [lia|].
    unfold Int64.in_range, Int64.min_int, Int64.max_int in *. lia.
Qed.

End EncoderFacts.

(** The statement of C6 on two columns of [int32] and a column of strings,
    five rows: a body of 72 bytes. *)
Lemma Encode_layout_witness :
  size (pay (snd (Demo.Encode Demo.threeColumns 5 (Demo.st0 64)))) mod 8 = 0 /\
  size (pay (snd (Demo.Encode Demo.threeColumns 5 (Demo.st0 64)))) =
    sumLen (meta (enc (snd (Demo.Encode Demo.threeColumns 5 (Demo.st0 64))))) /\
  Forall2 (fun m b => bm_Len m = roundUp8 (bufLen b))
    (meta (enc (snd (Demo.Encode Demo.threeColumns 5 (Demo.st0 64)))))
    (body (pay (snd (Demo.Encode Demo.threeColumns 5 (Demo.st0 64))))) /\
  runningTotal 0 (meta (enc (snd (Demo.Encode Demo.threeColumns 5 (Demo.st0 64))))).
Proof.
  destruct (Encode_layout Demo.kArrowAlignment Demo.NewSlice Demo.writeRecordMessage
              Demo.threeColumns 5 (Demo.st0 64)
              (snd (Demo.Encode Demo.threeColumns 5 (Demo.st0 64))))
    as [H1 H2].
  - vm_compute. reflexivity.
  - split; [exact H1|]. apply H2.
    + simpl. lia.
    + vm_compute. discriminate.
Defined.

Example threeColumns_size :
  size (pay (snd (Demo.Encode Demo.threeColumns 5 (Demo.st0 64)))) = 72.
Proof. vm_compute. reflexivity. Qed.

(** Against C3 as stated, [Demo.wholeList]: its offsets [0, 2] designate
    the whole child array of 2 values, not a strict sub-range of it, and
    the child is re-sliced all the same. *)
Lemma sliceValues_whole_range :
  fst (valuesRange (Demo.zeros 3 8) [0; 2] 1 (Demo.st0 64)) = Ok (0, 2) /\
  ~ strictSubRange 2 Demo.int32x2 /\
  fst (sliceValues Demo.NewSlice [0; 2] Demo.int32x2 0 2 (Demo.st0 64))
    = Ok (Demo.int32x2, true) /\
  views (snd (sliceValues Demo.NewSlice [0; 2] Demo.int32x2 0 2 (Demo.st0 64))) = 1%nat.
Proof.
  split; [vm_compute; reflexivity|].
  split; [unfold strictSubRange; vm_compute; discriminate|].
  split; vm_compute; reflexivity.
Qed.

(** ** The shape of the encoded record *)

Lemma wp_conj {S A} (m : M S A) (P Q : outcome A -> S -> Prop) s :
  wp m P s -> wp m Q s -> wp m (fun r s' => P r s' /\ Q r s') s.
Proof. unfold wp. auto. Qed.

Lemma wp_index_some {S A} (xs : list A) (i : Z) (Q : outcome A -> S -> Prop) s :
  Q (Panic IndexOutOfRange) s ->
  (forall x, 0 <= i -> xs !! Z.to_nat i = Some x -> Q (Ok x) s) ->
  wp (index xs i) Q s.
Proof.
  intros Hp Hok. unfold wp, index.
  destruct (i <? 0) eqn:Ei; [exact Hp|]. apply Z.ltb_ge in Ei.
  destruct (xs !! Z.to_nat i) as [x|] eqn:E; [apply Hok; [exact Ei|reflexivity]|exact Hp].
Qed.

(** [getZeroBasedValueOffsets] by cases: it returns the second buffer of
    the array, retained, when that buffer is not nil and the array starts
    at offset 0, and panics otherwise. *)
Lemma getZeroBasedValueOffsets_cases arr s :
  match getZeroBasedValueOffsets arr s with
  | (Ok v, s') =>
      exists b, v = Some b /\
        data_buffers (Array_Data arr) !! 1%nat = Some (Some b) /\
        data_offset (Array_Data arr) = 0 /\
        s' = set_refs (retain_addr v) s
  | (Panic _, s') => s' = s
  | _ => False
  end.
Proof.
  unfold getZeroBasedValueOffsets, bind, index.
  change (1 <? 0) with false. change (Z.to_nat 1) with 1%nat. cbv iota.
  destruct (data_buffers (Array_Data arr) !! 1%nat) as [v|] eqn:E; [|reflexivity].
  simpl. destruct (data_offset (Array_Data arr) =? 0) eqn:Eo; simpl; [|reflexivity].
  apply Z.eqb_eq in Eo. destruct v as [b|]; simpl; [|reflexivity].
  exists b. auto.
Qed.

Lemma wp_getZeroBasedValueOffsets_some arr
    (Q : outcome (option Buffer) -> St -> Prop) s :
  (forall p, Q (Panic p) s) ->
  (forall b, Q (Ok (Some b)) (set_refs (retain_addr (Some b)) s)) ->
  wp (getZeroBasedValueOffsets arr) Q s.
Proof.
  intros Hp Hok. unfold wp.
  pose proof (getZeroBasedValueOffsets_cases arr s) as H.
  destruct (getZeroBasedValueOffsets arr s) as [[v|e|p|] s']; simpl; try contradiction.
  - destruct H as (b & -> & _ & _ & ->). apply Hok.
  - subst s'. apply Hp.
Qed.

(** X1: [getZeroBasedValueOffsets] returns no error and no nil buffer:
    when it returns, the array starts at offset 0 and the buffer returned
    is the second buffer of the array, which is not nil; in every other
    case it panics, and the state is then as it was. *)
Theorem getZeroBasedValueOffsets_never_nil arr s :
  (forall e, fst (getZeroBasedValueOffsets arr s) <> Err e) /\
  fst (getZeroBasedValueOffsets arr s) <> Ok None /\
  (forall v, fst (getZeroBasedValueOffsets arr s) = Ok v ->
     data_offset (Array_Data arr) = 0 /\
     data_buffers (Array_Data arr) !! 1%nat = Some v) /\
  (forall p, fst (getZeroBasedValueOffsets arr s) = Panic p ->
     snd (getZeroBasedValueOffsets arr s) = s).
Proof.
  pose proof (getZeroBasedValueOffsets_cases arr s) as H.
  destruct (getZeroBasedValueOffsets arr s) as [[v|e|p|] s']; cbn [fst snd];
    try contradiction.
  - destruct H as (b & -> & Hb & Ho & _).
    split; [discriminate|]. split; [discriminate|].
    split; [|discriminate]. intros v [= <-]. auto.
  - split; [discriminate|]. split; [discriminate|].
    split; [discriminate|]. intros _ _. exact H.
Qed.

Lemma wp_newTruncatedBitmap_some k offset length input
    (Q : outcome (option Buffer) -> St -> Prop) s :
  (forall p, Q (Panic p) s) ->
  (forall b, input = Some b -> Q (Ok input) (set_refs (retain_addr input) s)) ->
  wp (newTruncatedBitmap k offset length input) Q s.
Proof.
  intros Hp Hok. destruct input as [b|].
  - apply (Hok b). reflexivity.
  - unfold wp. rewrite newTruncatedBitmap_on_nil. apply Hp.
Qed.

Lemma retainAll_app (bs1 bs2 : list (option Buffer)) (h : refcounts) :
  retainAll (bs1 ++ bs2) h = retainAll bs2 (retainAll bs1 h).
Proof. unfold retainAll. apply foldl_app. Qed.

Lemma grows_refl (s : St) : grows s s [] [].
Proof. unfold grows. rewrite !app_nil_r. repeat split. constructor. Qed.

Lemma grows_trans (s s1 s2 : St) fs1 bs1 fs2 bs2 :
  grows s s1 fs1 bs1 -> grows s1 s2 fs2 bs2 -> grows s s2 (fs1 ++ fs2) (bs1 ++ bs2).
Proof.
  intros (F1 & B1 & M1 & G1 & P1 & Z1 & O1) (F2 & B2 & M2 & G2 & P2 & Z2 & O2).
  unfold grows. rewrite F2, F1, B2, B1, M2, M1, G2, G1, P2, P1, Z2, Z1, !app_assoc.
  repeat split. apply Forall_app. split; assumption.
Qed.

Lemma grows_push_field (s s1 : St) fs bs f :
  grows s s1 fs bs -> fm_Offset f = 0 -> grows s (push_field f s1) (fs ++ [f]) bs.
Proof.
  intros (F & B & M & G & P & Z & O) Hf. unfold grows. simpl.
  rewrite F, app_assoc. repeat split; try assumption.
  apply Forall_app. split; [assumption|]. constructor; [assumption|constructor].
Qed.

Lemma grows_push_body (s s1 : St) fs bs b :
  grows s s1 fs bs -> grows s (push_body b s1) fs (bs ++ [b]).
Proof.
  intros (F & B & M & G & P & Z & O). unfold grows. simpl.
  rewrite B, app_assoc. repeat split; assumption.
Qed.

Lemma grows_set_refs (s s1 : St) fs bs f :
  grows s s1 fs bs -> grows s (set_refs f s1) fs bs.
Proof. exact (fun H => H). Qed.

Lemma grows_set_depth (s s1 : St) fs bs f :
  grows s s1 fs bs -> grows s (set_depth f s1) fs bs.
Proof. exact (fun H => H). Qed.

Lemma grows_set_views (s s1 : St) fs bs f :
  grows s s1 fs bs -> grows s (set_views f s1) fs bs.
Proof. exact (fun H => H). Qed.

Ltac grows_solve :=
  repeat first
    [ eapply grows_push_field; [|reflexivity]
    | eapply grows_push_body
    | eapply grows_set_refs
    | eapply grows_set_depth
    | eapply grows_set_views ];
  first [eassumption | apply grows_refl].

Lemma grows_eq (s s' : St) fs bs fs' bs' :
  grows s s' fs bs -> fs = fs' -> bs = bs' -> grows s s' fs' bs'.
Proof. intros G <- <-. exact G. Qed.

Ltac grows_exact := eapply grows_eq; [grows_solve|reflexivity|reflexivity].

(** The entries of a node come first among those its traversal adds. *)
Lemma ownSlots_head arr (s s' : St) fs bs v :
  grows s s' fs bs ->
  head fs = Some (mkFieldMetadata (Array_Len arr) (Array_NullN arr) 0) ->
  head bs = Some v ->
  validitySlot arr v ->
  ownSlots arr s s'.
Proof.
  intros (F & B & _) Hf Hb Hv. unfold ownSlots. rewrite F, B.
  destruct fs as [|f fs]; [discriminate|]. destruct bs as [|b bs]; [discriminate|].
  simpl in Hf, Hb. injection Hf as ->. injection Hb as ->.
  split; [apply list_lookup_middle; reflexivity|].
  exists v. split; [apply list_lookup_middle; reflexivity|assumption].
Qed.

Lemma node_leaf kn ks arr (s s' : St) fs bs v :
  grows s s' fs bs ->
  refs s' = retainAll bs (refs s) ->
  length fs = nodeCount arr ->
  length bs = bufferCount arr ->
  head fs = Some (mkFieldMetadata (Array_Len arr) (Array_NullN arr) 0) ->
  head bs = Some v ->
  validitySlot arr v ->
  node_post kn ks arr s (Ok tt) s'.
Proof.
  intros G R Nf Nb Hf Hb Hv. split.
  - exists fs, bs. split; [assumption|]. split; [assumption|]. intros _. split; assumption.
  - intros _. eapply ownSlots_head; eassumption.
Qed.

(** A node whose own entries are followed by those of a traversal of its
    children. *)
Lemma node_compose kn ks arr (s s1 : St) r s' fs1 bs1 nf nb v :
  grows s s1 fs1 bs1 ->
  refs s1 = retainAll bs1 (refs s) ->
  depth (enc s1) = depth (enc s) ->
  (length fs1 + nf = nodeCount arr)%nat ->
  (length bs1 + nb = bufferCount arr)%nat ->
  head fs1 = Some (mkFieldMetadata (Array_Len arr) (Array_NullN arr) 0) ->
  head bs1 = Some v ->
  validitySlot arr v ->
  trav_post kn ks nf nb (nesting arr) s1 r s' ->
  node_post kn ks arr s r s'.
Proof.
  intros G R D Nf Nb Hf Hb Hv (fs & bs & G2 & H).
  pose proof (grows_trans _ _ _ _ _ _ _ G G2) as G3.
  split.
  - exists (fs1 ++ fs), (bs1 ++ bs). split; [assumption|].
    destruct r as [[]|e|p|]; [| |exact I|exact I].
    + destruct H as [R2 C]. split.
      * rewrite R2, R, retainAll_app. reflexivity.
      * intros K. destruct (C K) as [C1 C2]. rewrite !length_app. lia.
    + destruct H as [R2 C]. split.
      * rewrite R2, R, retainAll_app. reflexivity.
      * rewrite <- D. exact C.
  - intros _. eapply ownSlots_head; [exact G3| | |exact Hv].
    + destruct fs1; [discriminate|exact Hf].
    + destruct bs1; [discriminate|exact Hb].
Qed.

(** *** Loops over arrays *)

Section Loop.
Variables keepsN keepsS : Prop.
Variable v : Array -> M St unit.
Hypothesis Hv : forall arr s,
  wp (v arr)
     (fun r s' =>
        node_post keepsN keepsS arr s r s' /\
        (r = Ok tt -> 0 <= depth (enc s) <= Int64.max_int ->
         depth (enc s') = depth (enc s))) s.
Variable msg : string.
Variable loop : list Array -> M St unit.
Hypothesis loop_nil : loop [] = ret tt.
Hypothesis loop_cons : forall c cs, loop (c :: cs) = (wrapErr msg (v c) ;;; loop cs).

Lemma loop_shape (cs : list Array) :
  forall s,
    wp (loop cs)
       (trav_post keepsN keepsS (nodeCounts cs) (bufferCounts cs) (maxNesting cs) s) s.
Proof.
  induction cs as [|c cs IH]; intros s.
  - rewrite loop_nil. exists [], []. split; [apply grows_refl|].
    split; [reflexivity|]. intros _. split; reflexivity.
  - rewrite loop_cons. apply wp_bind, wp_wrapErr.
    eapply wp_mono; [apply Hv|].
    intros r s1 [[(fs1 & bs1 & G1 & H1) _] D]. destruct r as [[]|e|p|]; cbv beta iota.
    + destruct H1 as [R1 C1]. specialize (D eq_refl).
      eapply wp_mono; [apply IH|].
      intros r2 s2 (fs2 & bs2 & G2 & H2).
      exists (fs1 ++ fs2), (bs1 ++ bs2).
      split; [eapply grows_trans; eassumption|].
      destruct r2 as [[]|e|p|]; [| |exact I|exact I].
      * destruct H2 as [R2 C2]. split.
        -- rewrite R2, R1, retainAll_app. reflexivity.
        -- intros K. destruct (C1 K) as [? ?]. destruct (C2 K) as [? ?].
           rewrite !length_app. unfold nodeCounts, bufferCounts in *.
           cbn [foldr]. lia.
      * destruct H2 as [R2 C2]. split.
        -- rewrite R2, R1, retainAll_app. reflexivity.
        -- intros Hd K Hc. rewrite (D Hd) in C2. specialize (C2 Hd K Hc).
           unfold maxNesting in *. cbn [foldr]. lia.
    + exists fs1, bs1. split; [assumption|]. destruct H1 as [R1 C1].
      split; [assumption|]. intros Hd K Hc. specialize (C1 Hd K Hc).
      unfold maxNesting. cbn [foldr]. lia.
    + exists fs1, bs1. split; [assumption|exact I].
    + exists fs1, bs1. split; [assumption|exact I].
Qed.
End Loop.

Section ShapeFacts.
Variable kArrowAlignment : Z.
Variable NewSlice : Array -> Z -> Z -> option Array.

Local Abbreviation visit_fuel' := (visit_fuel kArrowAlignment NewSlice).
Local Abbreviation visit' := (visit kArrowAlignment NewSlice).
Local Abbreviation shape := (node_post (keepsNesting NewSlice) (keepsShape NewSlice)).
Local Abbreviation shapes := (trav_post (keepsNesting NewSlice) (keepsShape NewSlice)).

Ltac wp_stepx :=
  lazymatch goal with
  | |- wp (bind _ _) _ _ => apply wp_bind
  | |- wp (wrapErr _ _) _ _ => apply wp_wrapErr
  | |- wp (defer _ _) _ _ => apply wp_defer
  | |- wp (ret ?a) ?Q ?s => change (Q (Ok a) s)
  | |- wp (modify ?f) ?Q ?s => change (Q (Ok tt) (f s))
  | |- wp (gets ?f) ?Q ?s => change (Q (Ok (f s)) s)
  | |- wp (fail ?e) ?Q ?s => change (Q (Err e) s)
  | |- wp (throw ?p) ?Q ?s => change (Q (Panic p) s)
  | |- wp timeout ?Q ?s => change (Q OutOfFuel s)
  | |- wp depth_dec _ _ => unfold depth_dec
  | |- wp depth_inc _ _ => unfold depth_inc
  | |- wp (index _ _) _ _ => apply wp_index_some; [|intros ? ? ?]
  | |- wp (newTruncatedBitmap _ _ _ _) _ _ =>
      apply wp_newTruncatedBitmap_some; [intros ?|intros ? ?]
  | |- wp (getZeroBasedValueOffsets _) _ _ =>
      apply wp_getZeroBasedValueOffsets; [intros ? ?|intros ?]
  | |- wp (retainOrCopy _ _ _) _ _ => apply wp_retainOrCopy; [intros ? ?|]
  | |- wp (valuesRange _ _ _) _ _ => apply wp_valuesRange; [|intros ?]
  | |- wp (if ?c then _ else _) _ _ => destruct c eqn:?
  end; cbv beta iota.

(** A traversal that stops on a panic or on the fuel has only added
    entries. *)
Ltac stopped :=
  lazymatch goal with
  | |- node_post _ _ _ _ _ _ =>
      split; [eexists _, _; split; [grows_solve|exact I]|intros ?; discriminate]
  | |- trav_post _ _ _ _ _ _ _ _ =>
      eexists _, _; split; [grows_solve|exact I]
  end.

(** What every visit gives to the loop that makes it. *)
Lemma visit_fuel_both (n : nat) :
  (forall arr s, wp (visit_fuel' n arr) (shape arr s) s) ->
  forall arr s,
    wp (visit_fuel' n arr)
       (fun r s' =>
          shape arr s r s' /\
          (r = Ok tt -> 0 <= depth (enc s) <= Int64.max_int ->
           depth (enc s') = depth (enc s))) s.
Proof.
  intros IH arr s. eapply wp_mono.
  - apply wp_conj; [apply IH|apply (visit_fuel_post kArrowAlignment NewSlice n arr s)].
  - intros r s' [H1 (_ & _ & _ & H2)]. split; [exact H1|].
    intros -> Hd. destruct H2 as [_ H2]. exact (proj1 (H2 Hd)).
Qed.

Lemma visitStruct_shape (n : nat) :
  (forall arr s, wp (visit_fuel' n arr) (shape arr s) s) ->
  forall cs s, 0 < depth (enc s) ->
    wp (depth_dec ;;; visitFields (visit_fuel' n) cs ;;; depth_inc)
       (shapes (nodeCounts cs) (bufferCounts cs) (S (maxNesting cs)) s) s.
Proof.
  intros IH cs s Hpos. do 4 wp_stepx.
  eapply wp_mono.
  { apply (loop_shape _ _ _ (visit_fuel_both n IH)
             "could not visit field %d of struct-array"
             (visitFields (visit_fuel' n))); reflexivity. }
  intros r s2 (fs & bs & G & H).
  destruct r as [[]|e|p|]; repeat wp_stepx; exists fs, bs; (split; [exact G|]).
  - exact H.
  - destruct H as [R C]. split; [exact R|]. intros Hd K Hc.
    destruct (depth_dec_inc (depth (enc s))) as [Hdec _]; [lia|].
    cbn [depth enc set_depth] in C. rewrite Hdec in C.
    specialize (C ltac:(lia) K Hc). lia.
  - exact I.
  - exact I.
Qed.

Lemma wp_sliceValues_shape offsets values vo vl
    (Q : outcome (Array * bool) -> St -> Prop) s :
  Q (Panic IndexOutOfRange) s ->
  (forall v, NewSlice values vo vl = Some v -> Q (Ok (v, true)) (set_views S s)) ->
  Q (Ok (values, false)) s ->
  wp (sliceValues NewSlice offsets values vo vl) Q s.
Proof.
  intros Hp Hs Hn. unfold sliceValues.
  destruct (mustSlice _ _ _); [|exact Hn].
  apply wp_bind. unfold array_NewSlice.
  destruct (NewSlice values vo vl) as [v|] eqn:E; [|exact Hp].
  apply wp_bind. apply Hs. reflexivity.
Qed.

(** The visit of the child of a list, and what follows it. *)
Lemma visitChild_shape (n : nat) :
  (forall arr s, wp (visit_fuel' n arr) (shape arr s) s) ->
  forall (flag : bool) child values (s0 s : St) b,
    (keepsNesting NewSlice -> nesting child = nesting values) ->
    (keepsShape NewSlice ->
     nodeCount child = nodeCount values /\ bufferCount child = bufferCount values) ->
    0 < depth (enc s0) ->
    depth (enc s) = Int64.sub (depth (enc s0)) 1 ->
    grows s0 s [] [b] ->
    refs s = retainAll [b] (refs s0) ->
    wp (defer (releaseIf flag)
          (wrapErr "could not visit list element for array %T" (visit_fuel' n child) ;;;
           depth_inc))
       (shapes (nodeCount values) (S (bufferCount values)) (S (nesting values)) s0) s.
Proof.
  intros IH flag child values s0 s b KN KS Hpos Hd G0 R0.
  do 3 wp_stepx. eapply wp_mono; [apply IH|].
  intros r s3 [(fs & bs & G & H) _].
  pose proof (grows_trans _ _ _ _ _ _ _ G0 G) as G3.
  assert (forall s4, grows s0 s4 ([] ++ fs) ([b] ++ bs) ->
                     grows s0 (releaseIf flag s4) ([] ++ fs) ([b] ++ bs)) as Grel.
  { intros s4 G4. destruct flag; exact G4. }
  assert (forall s4, refs (releaseIf flag s4) = refs s4) as Rrel.
  { intros s4. destruct flag; reflexivity. }
  destruct r as [[]|e|p|]; repeat wp_stepx; exists ([] ++ fs), ([b] ++ bs);
    (split; [apply Grel; exact G3|]); try exact I.
  - destruct H as [R C]. rewrite Rrel. cbn [refs set_depth]. split.
    + rewrite R, R0, retainAll_app. reflexivity.
    + intros K. destruct (C K) as [C1 C2]. destruct (KS K) as [K1 K2].
      rewrite !length_app. cbn [length]. lia.
  - destruct H as [R C]. rewrite Rrel. split.
    + rewrite R, R0, retainAll_app. reflexivity.
    + intros Hr K Hc. destruct (depth_dec_inc (depth (enc s0))) as [Hdec _]; [lia|].
      rewrite Hd, Hdec in C. specialize (C ltac:(lia) K Hc).
      rewrite (KN K) in C. lia.
Qed.

Lemma visitList_shape (n : nat) :
  (forall arr s, wp (visit_fuel' n arr) (shape arr s) s) ->
  forall arr offsets values s, 0 < depth (enc s) ->
    wp (visitList NewSlice (visit_fuel' n) arr offsets values)
       (shapes (nodeCount values) (S (bufferCount values)) (S (nesting values)) s) s.
Proof.
  intros IH arr offsets values s Hpos. unfold visitList.
  repeat wp_stepx; try solve [stopped].
  apply wp_sliceValues_shape; [stopped| |].
  - intros child Hslice. cbv beta iota. cbn [fst snd].
    lazymatch goal with
    | |- wp _ _ (set_views _ (set_depth _ (push_body ?b _))) =>
        apply (visitChild_shape n IH true child values s _ b)
    end.
    + intros K. exact (K _ _ _ _ Hslice).
    + intros K. exact (K _ _ _ _ Hslice).
    + exact Hpos.
    + reflexivity.
    + grows_exact.
    + reflexivity.
  - cbv beta iota. cbn [fst snd].
    lazymatch goal with
    | |- wp _ _ (set_depth _ (push_body ?b _)) =>
        apply (visitChild_shape n IH false values values s _ b)
    end.
    + reflexivity.
    + intros _. split; reflexivity.
    + exact Hpos.
    + reflexivity.
    + grows_exact.
    + reflexivity.
Qed.

Lemma nesting_pos (arr : Array) : (1 <= nesting arr)%nat.
Proof. destruct arr; simpl; lia. Qed.

Ltac validity :=
  unfold validitySlot;
  lazymatch goal with
  | H : (Array_NullN _ =? 0) = _ |- _ => rewrite H
  end;
  first [ reflexivity
        | subst; eexists; split; [reflexivity|eassumption] ].

(** The shape of what [visit] adds, for every fuel, array and state. *)
Lemma visit_fuel_shape (fuel : nat) :
  forall arr s, wp (visit_fuel' fuel arr) (shape arr s) s.
Proof.
  assert (forall arr s, depth (enc s) <= 0 -> shape arr s (Err errMaxRecursion) s) as Hdeep.
  { intros arr s Hle. split; [|discriminate].
    exists [], []. split; [apply grows_refl|]. split; [reflexivity|].
    intros _ _ _. pose proof (nesting_pos arr). lia. }
  assert (forall arr s, shape arr s (Err errBigArray) s) as Hbig.
  { intros arr s. split; [|discriminate].
    exists [], []. split; [apply grows_refl|]. split; [reflexivity|].
    intros _ _ Hc. discriminate Hc. }
  induction fuel as [|n IH]; intros arr s; cbn [visit_fuel].
  - repeat wp_stepx.
    + apply Hdeep. apply Z.leb_le. assumption.
    + stopped.
  - repeat wp_stepx; try solve [stopped].
    1: { apply Hdeep. apply Z.leb_le. assumption. }
    1: { apply Hbig. }
    all: match goal with H : (_ <=? 0) = false |- _ => apply Z.leb_gt in H end.
    all: destruct arr;
      lazymatch goal with
      | |- wp (bind depth_dec _) _ _ =>
          eapply wp_mono;
          [ apply (visitStruct_shape n IH); simpl; lia
          | intros r s' Hblock;
            eapply node_compose; [..|exact Hblock];
            [grows_solve|reflexivity..|validity] ]
      | |- wp (visitList _ _ _ _ _) _ _ =>
          eapply wp_mono;
          [ apply (visitList_shape n IH); simpl; lia
          | intros r s' Hblock;
            eapply node_compose; [..|exact Hblock];
            [grows_solve|reflexivity..|validity] ]
      | _ =>
          repeat wp_stepx; try solve [stopped];
          (eapply node_leaf; [grows_solve|reflexivity..|validity])
      end.
Qed.

(** *** The top-level [visit] and the loop over the columns *)

Lemma visit_shape_holds arr s : wp (visit' arr) (shape arr s) s.
Proof. unfold wp. rewrite visit_unfold. apply visit_fuel_shape. Qed.

Lemma visit_both arr s :
  wp (visit' arr)
     (fun r s' =>
        shape arr s r s' /\
        (r = Ok tt -> 0 <= depth (enc s) <= Int64.max_int ->
         depth (enc s') = depth (enc s))) s.
Proof.
  eapply wp_mono.
  - apply wp_conj; [apply visit_shape_holds|apply (visit_post_holds kArrowAlignment NewSlice arr s)].
  - intros r s' [H1 (_ & _ & _ & H2)]. split; [exact H1|].
    intros -> Hd. destruct H2 as [_ H2]. exact (proj1 (H2 Hd)).
Qed.

Lemma visitColumns_shape cols s :
  wp (visitColumns kArrowAlignment NewSlice cols)
     (shapes (nodeCounts cols) (bufferCounts cols) (maxNesting cols) s) s.
Proof.
  apply (loop_shape _ _ _ visit_both "arrow/ipc: could not encode column %d (%q)"
           (visitColumns kArrowAlignment NewSlice)); reflexivity.
Qed.

(** A visit that succeeds had some depth budget left. *)
Lemma visit_ok_depth arr s s' : visit' arr s = (Ok tt, s') -> 0 < depth (enc s).
Proof.
  intros E. destruct (Z_le_gt_dec (depth (enc s)) 0) as [Hle|Hgt]; [|lia].
  rewrite visit_unfold, visit_fuel_exhausted in E by assumption. discriminate.
Qed.

Lemma visitColumns_depth cols s s' :
  depth (enc s) <= Int64.max_int ->
  visitColumns kArrowAlignment NewSlice cols s = (Ok tt, s') ->
  depth (enc s') = depth (enc s).
Proof.
  intros Hmax E.
  pose proof (wp_run _ _ _ _ _ E (visitColumns_post kArrowAlignment NewSlice cols s)) as H.
  destruct H as (_ & _ & _ & _ & H).
  destruct cols as [|c cols].
  - injection E as <-. reflexivity.
  - apply H. split; [|assumption].
    simpl in E. unfold bind, wrapErr in E.
    destruct (visit' c s) as [[[]|e|p|] s1] eqn:Ec; try discriminate.
    pose proof (visit_ok_depth _ _ _ Ec). lia.
Qed.

(** ** What [visit] adds to the encoder and to the payload *)

(** X2: however [visit] is left (success, error, panic), it has only
    appended: the field metadata and the body it found are prefixes of
    those it leaves, every field entry added has [Offset] 0, and the buffer
    metadata, the message type, the header and the size of the payload, the
    base offset and the [allow64b] flag are untouched. *)
Theorem visit_only_appends arr s :
  let s' := snd (visit kArrowAlignment NewSlice arr s) in
  exists fs bs,
    fields (enc s') = fields (enc s) ++ fs /\
    body (pay s') = body (pay s) ++ bs /\
    Forall (fun f => fm_Offset f = 0) fs /\
    meta (enc s') = meta (enc s) /\
    msg (pay s') = msg (pay s) /\
    pmeta (pay s') = pmeta (pay s) /\
    size (pay s') = size (pay s) /\
    start (enc s') = start (enc s) /\
    allow64b (enc s') = allow64b (enc s).
Proof.
  cbv zeta.
  destruct (visit_shape_holds arr s) as [(fs & bs & (F & B & M & G & P & Z & O) & _) _].
  destruct (visit_post_holds kArrowAlignment NewSlice arr s) as (_ & Ha & Hs & _).
  exists fs, bs. repeat split; assumption.
Qed.

(** X3: a visit that succeeds has added one field entry for every node of
    the array and, for every node, its validity entry and the entries of
    its type: one more for a null, boolean, fixed-width, list or
    fixed-size-list array, two more for a binary or string array, none for
    a struct; slicing is taken to keep the type and the children of an
    array. *)
Theorem visit_counts arr s s' :
  keepsShape NewSlice ->
  visit' arr s = (Ok tt, s') ->
  length (fields (enc s')) = (length (fields (enc s)) + nodeCount arr)%nat /\
  length (body (pay s')) = (length (body (pay s)) + bufferCount arr)%nat.
Proof.
  intros K E.
  destruct (wp_run _ _ _ _ _ E (visit_shape_holds arr s))
    as [(fs & bs & (F & B & _) & _ & C) _].
  destruct (C K) as [C1 C2]. rewrite F, B, !length_app. lia.
Qed.

(** X4: after a visit that succeeds, the first field entry added is that
    of the array itself (its length, its null count, offset 0) and the
    first body entry added is its validity entry: nil when the null count
    is 0, and otherwise the first buffer of the array, as it is, which is
    then not nil. *)
Theorem visit_own_entries arr s s' :
  visit' arr s = (Ok tt, s') ->
  fields (enc s') !! length (fields (enc s)) =
    Some (mkFieldMetadata (Array_Len arr) (Array_NullN arr) 0) /\
  exists v,
    body (pay s') !! length (body (pay s)) = Some v /\
    (Array_NullN arr = 0 -> v = None) /\
    (Array_NullN arr <> 0 ->
     exists b, v = Some b /\ data_buffers (Array_Data arr) !! 0%nat = Some (Some b)).
Proof.
  intros E.
  destruct (wp_run _ _ _ _ _ E (visit_shape_holds arr s)) as [_ H].
  destruct (H eq_refl) as [Hf (v & Hb & Hv)].
  split; [exact Hf|]. exists v. split; [exact Hb|].
  unfold validitySlot in Hv. destruct (Array_NullN arr =? 0) eqn:En.
  - apply Z.eqb_eq in En. split; [intros _; exact Hv|intros Hn; contradiction].
  - apply Z.eqb_neq in En. split; [intros Hn; contradiction|intros _; exact Hv].
Qed.

(** X5: when [visit] returns, with or without an error, every buffer has
    been retained once for each of its occurrences among the body entries
    added, and nothing else has been retained or released. *)
Theorem visit_retains_what_it_appends arr s r s' :
  visit' arr s = (r, s') ->
  (r = Ok tt \/ exists e, r = Err e) ->
  exists bs,
    body (pay s') = body (pay s) ++ bs /\
    refs s' = retainAll bs (refs s).
Proof.
  intros E Hr.
  destruct (wp_run _ _ _ _ _ E (visit_shape_holds arr s))
    as [(fs & bs & (_ & B & _) & H) _].
  exists bs. split; [exact B|].
  destruct Hr as [->|[e ->]]; exact (proj1 H).
Qed.

(** X6: a visit that succeeds had some depth budget left and gives the
    budget back: the decrements made on the way down are undone on the way
    up. *)
Theorem visit_restores_depth arr s s' :
  depth (enc s) <= Int64.max_int ->
  visit' arr s = (Ok tt, s') ->
  0 < depth (enc s) /\ depth (enc s') = depth (enc s).
Proof.
  intros Hmax E. pose proof (visit_ok_depth _ _ _ E) as Hpos.
  split; [exact Hpos|].
  destruct (wp_run _ _ _ _ _ E (visit_post_holds kArrowAlignment NewSlice arr s))
    as (_ & _ & _ & _ & H).
  apply H. lia.
Qed.

(** X7: with [allow64b], an array nested no deeper than the depth budget
    is never refused: [visit] succeeds or panics, and it returns no
    error. *)
Theorem visit_within_budget arr s :
  keepsNesting NewSlice ->
  allow64b (enc s) = true ->
  Z.of_nat (nesting arr) <= depth (enc s) <= Int64.max_int ->
  (exists s', visit' arr s = (Ok tt, s')) \/
  (exists p s', visit' arr s = (Panic p, s')).
Proof.
  intros K Ha Hd.
  pose proof (visit_total kArrowAlignment NewSlice arr s ltac:(lia)) as Ht.
  pose proof (visit_errors kArrowAlignment NewSlice arr s) as He.
  pose proof (visit_shape_holds arr s) as H. unfold wp in H.
  destruct (visit' arr s) as [[[]|e|p|] s'] eqn:E; cbn [fst snd] in *.
  - left. eauto.
  - exfalso. destruct H as [(fs & bs & _ & _ & C) _].
    destruct (He e eq_refl) as [Hc|[_ Hf]]; [|congruence].
    pose proof (nesting_pos arr). specialize (C ltac:(lia) K Hc). lia.
  - right. eauto.
  - exfalso. exact (Ht eq_refl).
Qed.

(** ** The child of a list *)

(** The visit of a list or fixed-size-list array, step by step.  It stops
    at once on one of the two errors that open [visit]; or it panics before
    the recursion, no view being then alive that was not before; or it
    reads the first offset and the offset at index [Len], slices the child
    by [array.NewSlice] with the first offset and the difference of the two
    as indices, and makes the recursive visit on that slice: the error of
    the recursion is wrapped, the depth budget is given back on success,
    and the slice is released however the recursion is left. *)
Lemma visit_list_steps arr d offsets values s :
  arr = ListArr d offsets values \/ arr = FixedSizeListArr d offsets values ->
  depth (enc s) <= Int64.max_int ->
  (exists e, visit' arr s = (Err e, s) /\ (e = errMaxRecursion \/ e = errBigArray)) \/
  (exists p s', visit' arr s = (Panic p, s') /\ views s' = views s) \/
  (exists o0 on child s2 bs,
     offsets !! 0%nat = Some o0 /\
     0 <= data_len d /\
     offsets !! Z.to_nat (data_len d) = Some on /\
     NewSlice values o0 (Int64.sub on o0) = Some child /\
     grows s s2 [mkFieldMetadata (Array_Len arr) (Array_NullN arr) 0] bs /\
     views s2 = S (views s) /\
     depth (enc s2) = depth (enc s) - 1 /\
     visit' arr s =
       let (r3, s3) := visit' child s2 in
       match r3 with
       | Ok _ => (Ok tt, Array_Release (set_depth (fun d => Int64.add d 1) s3))
       | Err e =>
           (Err (Wrap "could not visit list element for array %T" e), Array_Release s3)
       | Panic p => (Panic p, Array_Release s3)
       | OutOfFuel => (OutOfFuel, Array_Release s3)
       end).
Proof.
  intros Harr Hmax.
  destruct (Z_le_gt_dec (depth (enc s)) 0) as [Hle|Hgt].
  { left. exists errMaxRecursion.
    rewrite visit_unfold, visit_fuel_exhausted by assumption. auto. }
  destruct (depth_dec_inc (depth (enc s))) as [Hdec _]; [lia|].
  rewrite visit_unfold.
  destruct (Z.to_nat (depth (enc s))) as [|n] eqn:En; [lia|].
  assert (Z.to_nat (depth (enc s) - 1) = n) as Hn by lia.
  match goal with
  | |- ?A \/ ?B \/ ?C =>
      pattern (visit_fuel' (S n) arr s);
      match goal with
      | |- ?P _ =>
          assert (wp (visit_fuel' (S n) arr) (fun r s' => P (r, s')) s) as H;
          [|unfold wp in H; destruct (visit_fuel' (S n) arr s); exact H]
      end
  end.
  cbn [visit_fuel].
  repeat wp_stepx;
    try solve [ right; left; eexists _, _; split; reflexivity
              | left; eexists; split; [reflexivity|auto]
              | apply Z.leb_le in Heqb; lia ].
  all: destruct Harr as [->| ->]; unfold visitList; cbn [Array_Len Array_NullN Array_Data].
  all: wp_stepx; wp_stepx;
    (apply wp_getZeroBasedValueOffsets_some;
     [intros ?; right; left; eexists _, _; split; reflexivity|intros ?]).
  all: do 5 wp_stepx; unfold valuesRange; cbn [is_nil negb].
  all: repeat wp_stepx;
    try solve [right; left; eexists _, _; split; reflexivity].
  all: cbn [fst snd].
  all: lazymatch goal with
    | H0 : ?os !! Z.to_nat 0 = Some ?o0,
      Hl : ?os !! Z.to_nat (Array_Len _) = Some ?on |- _ =>
        unfold sliceValues, mustSlice;
        destruct os as [|o offsets']; [discriminate H0|];
        cbn [length Nat.eqb negb orb];
        wp_stepx; unfold array_NewSlice;
        destruct (NewSlice values o0 (Int64.sub on o0)) as [child|] eqn:Es;
          [|right; left; eexists _, _; split; reflexivity];
        do 4 wp_stepx; cbn [fst snd];
        lazymatch goal with
        | |- wp _ _ ?s2 =>
            right; right; exists o0, on, child, s2; eexists;
            split; [exact H0|]; split; [assumption|]; split; [exact Hl|];
            split; [exact Es|]; split; [grows_exact|];
            split; [reflexivity|]; split; [exact Hdec|];
            rewrite (visit_unfold kArrowAlignment NewSlice child s2);
            change (depth (enc s2)) with (Int64.sub (depth (enc s)) 1);
            rewrite Hdec, Hn;
            unfold defer, bind, wrapErr, releaseIf, depth_inc, modify;
            destruct (visit_fuel' n child s2) as [[[]|e|p|] s3]; reflexivity
        end
    end.
Qed.

(** C3 (as the code has it): visiting a List or FixedSizeList node.  The
    child values array is re-sliced exactly when the offsets slice of the
    node is not empty or the designated range is shorter than the child
    array; the slice is a new live view.  On a visit that reaches the
    recursion this is always the case: the first offset has been read, so
    the offsets are not empty; the child is re-sliced by [array.NewSlice]
    from the first offset, the view being offset-adjusted whenever
    [array.NewSlice] makes such views; and the recursive visit is made on
    that slice.  The slice is released however the recursion is left, by
    success, by an error or by a panic; and whatever the array, once
    [visit] is left as many views are alive as before. *)
Theorem visitList_slices_and_releases :
  (forall offsets values vo vl s,
     match fst (sliceValues NewSlice offsets values vo vl s) with
     | Ok (child, mustRelease) =>
         (mustRelease = true <-> (offsets <> [] \/ vl < Array_Len values)) /\
         (if mustRelease
          then NewSlice values vo vl = Some child /\
               views (snd (sliceValues NewSlice offsets values vo vl s)) = S (views s)
          else child = values /\ snd (sliceValues NewSlice offsets values vo vl s) = s)
     | Panic _ =>
         (offsets <> [] \/ vl < Array_Len values) /\
         NewSlice values vo vl = None /\
         snd (sliceValues NewSlice offsets values vo vl s) = s
     | _ => False
     end) /\
  (forall arr d offsets values s,
     arr = ListArr d offsets values \/ arr = FixedSizeListArr d offsets values ->
     depth (enc s) <= Int64.max_int ->
     (exists e, visit' arr s = (Err e, s) /\ (e = errMaxRecursion \/ e = errBigArray)) \/
     (exists p s', visit' arr s = (Panic p, s') /\ views s' = views s) \/
     (exists o0 on child s2,
        offsets <> [] /\
        offsets !! 0%nat = Some o0 /\
        offsets !! Z.to_nat (data_len d) = Some on /\
        NewSlice values o0 (Int64.sub on o0) = Some child /\
        (offsetAdjusted NewSlice ->
         data_offset (Array_Data child) = data_offset (Array_Data values) + o0 /\
         data_buffers (Array_Data child) = data_buffers (Array_Data values)) /\
        views s2 = S (views s) /\
        visit' arr s =
          let (r3, s3) := visit' child s2 in
          match r3 with
          | Ok _ => (Ok tt, Array_Release (set_depth (fun d => Int64.add d 1) s3))
          | Err e =>
              (Err (Wrap "could not visit list element for array %T" e),
               Array_Release s3)
          | Panic p => (Panic p, Array_Release s3)
          | OutOfFuel => (OutOfFuel, Array_Release s3)
          end)) /\
  (forall fuel arr s, views (snd (visit_fuel' fuel arr s)) = views s) /\
  (forall arr s, views (snd (visit' arr s)) = views s).
Proof.
  split; [|split; [|split]].
  - intros offsets values vo vl s. unfold sliceValues, mustSlice.
    assert ((negb (Nat.eqb (length offsets) 0) || (vl <? Array_Len values)) = true
            <-> (offsets <> [] \/ vl < Array_Len values)) as Hc.
    { rewrite orb_true_iff, negb_true_iff, Nat.eqb_neq, Z.ltb_lt.
      destruct offsets; simpl; split; intros [H|H]; auto; left; congruence. }
    destruct (negb (Nat.eqb (length offsets) 0) || (vl <? Array_Len values)) eqn:E.
    + unfold bind, array_NewSlice.
      destruct (NewSlice values vo vl) as [v|] eqn:Ev; simpl.
      * split; [tauto|]. split; reflexivity.
      * split; [tauto|]. split; reflexivity.
    + simpl. split; [|split; reflexivity].
      split; [discriminate|]. intros H. apply Hc in H. discriminate.
  - intros arr d offsets values s Harr Hmax.
    destruct (visit_list_steps arr d offsets values s Harr Hmax)
      as [H|[H|(o0 & on & child & s2 & bs & H0 & _ & Hl & Es & _ & Hv & _ & E)]].
    + left. exact H.
    + right. left. exact H.
    + right. right. exists o0, on, child, s2.
      split; [intros ->; discriminate H0|].
      split; [exact H0|]. split; [exact Hl|].
      split; [exact Es|]. split; [intros K; exact (K _ _ _ _ Es)|].
      split; [exact Hv|exact E].
  - intros fuel arr s.
    exact (proj1 (visit_fuel_post kArrowAlignment NewSlice fuel arr s)).
  - intros arr s.
    exact (proj1 (visit_post_holds kArrowAlignment NewSlice arr s)).
Qed.

(** X8: a visit of a list or fixed-size-list array that succeeds has
    called [array.NewSlice] with the first offset and the difference to the
    offset at index [Len] as its two indices, and the field entry that
    follows the entry of the list is that of the view so made.  The indices
    of [array.NewSlice] being a start and an end, that view begins at the
    first offset and its length is the difference less the first offset:
    it is the range the offsets designate when the first offset is 0, and
    it is shorter when the first offset is positive. *)
Theorem list_child_is_always_sliced arr d offsets values s s' :
  slicesByIndex NewSlice ->
  arr = ListArr d offsets values \/ arr = FixedSizeListArr d offsets values ->
  depth (enc s) <= Int64.max_int ->
  visit' arr s = (Ok tt, s') ->
  exists o0 on child,
    offsets !! 0%nat = Some o0 /\
    0 <= data_len d /\
    offsets !! Z.to_nat (data_len d) = Some on /\
    NewSlice values o0 (Int64.sub on o0) = Some child /\
    data_offset (Array_Data child) = data_offset (Array_Data values) + o0 /\
    Array_Len child = Int64.sub on o0 - o0 /\
    fields (enc s') !! S (length (fields (enc s))) =
      Some (mkFieldMetadata (Array_Len child) (Array_NullN child) 0).
Proof.
  intros [Ko Kl] Harr Hmax E.
  destruct (visit_list_steps arr d offsets values s Harr Hmax)
    as [(e & H & _)|[(p & s1 & H & _)
       |(o0 & on & child & s2 & bs & H0 & Hd & Hl & Es & G & _ & _ & H)]];
    rewrite E in H; try discriminate H.
  exists o0, on, child.
  split; [exact H0|]. split; [exact Hd|]. split; [exact Hl|]. split; [exact Es|].
  split; [exact (proj1 (Ko _ _ _ _ Es))|]. split; [exact (Kl _ _ _ _ Es)|].
  pose proof (visit_shape_holds child s2) as Hs. unfold wp in Hs.
  destruct (visit' child s2) as [[[]|e|p|] s3]; try discriminate H.
  injection H as ->. destruct Hs as [_ Hs]. destruct (Hs eq_refl) as [Hf _].
  cbn [fst snd] in Hf. destruct G as (F & _). rewrite F, length_app in Hf.
  cbn [length] in Hf. rewrite Nat.add_1_r in Hf. exact Hf.
Qed.

(** ** Arrays the encoder does not take *)

Lemma wp_getZeroBasedValueOffsets_offset arr
    (Q : outcome (option Buffer) -> St -> Prop) s :
  (forall p, Q (Panic p) s) ->
  (data_offset (Array_Data arr) = 0 ->
   forall v, Q (Ok v) (set_refs (retain_addr v) s)) ->
  wp (getZeroBasedValueOffsets arr) Q s.
Proof.
  intros Hp Hok. unfold wp.
  pose proof (getZeroBasedValueOffsets_cases arr s) as H.
  destruct (getZeroBasedValueOffsets arr s) as [[v|e|p|] s']; simpl; try contradiction.
  - destruct H as (b & _ & _ & Ho & ->). apply Hok. exact Ho.
  - subst s'. apply Hp.
Qed.

Lemma wp_retainOrCopy_offset offset values minLength
    (Q : outcome unit -> St -> Prop) s :
  (forall p, Q (Panic p) s) ->
  (offset = 0 -> Q (Ok tt) (set_refs (retain_addr values) s)) ->
  wp (retainOrCopy offset values minLength) Q s.
Proof.
  intros Hp Hok. unfold retainOrCopy.
  destruct values as [b|]; [|apply Hp].
  unfold needTruncate. destruct (offset =? 0) eqn:Eo; [|apply Hp].
  apply Z.eqb_eq in Eo. cbn [negb orb].
  destruct (minLength <? _); [apply Hp|]. apply Hok. exact Eo.
Qed.

(** X9: a view that does not start at the first slot of its buffers is
    not encoded when it is a fixed-width, binary, string, list or
    fixed-size-list array: whatever the state, [visit] does not succeed on
    it. *)
Theorem visit_refuses_offset_views arr s :
  data_offset (Array_Data arr) <> 0 ->
  match arr with
  | FixedWidthArr _ _ | BinaryArr _ _ | StringArr _ _
  | ListArr _ _ _ | FixedSizeListArr _ _ _ => True
  | _ => False
  end ->
  forall u, fst (visit' arr s) <> Ok u.
Proof.
  intros Hoff Hkind u. rewrite visit_unfold.
  assert (wp (visit_fuel' (Z.to_nat (depth (enc s))) arr)
             (fun r _ => forall u, r <> Ok u) s) as H; [|exact (H u)].
  destruct (Z.to_nat (depth (enc s))) as [|n]; cbn [visit_fuel].
  - repeat wp_stepx; discriminate.
  - repeat wp_stepx; try discriminate.
    all: destruct arr; try contradiction; cbn [Array_Data] in Hoff; unfold visitList.
    all: repeat
           first
             [ apply wp_retainOrCopy_offset; [intros ? ?; discriminate|intros ?; contradiction]
             | (apply wp_wrapErr, wp_getZeroBasedValueOffsets_offset);
               [intros ? ?; discriminate|intros ?; contradiction]
             | wp_stepx; try discriminate ].
Qed.

(** X10: the two checks that open [visit].  With no depth budget left it
    returns the recursion error, whatever the array; with some budget
    left, an encoder that does not allow 64-bit lengths returns the
    big-array error for an array longer than [MaxInt32]; in both cases
    nothing has been added to the encoder or to the payload, and nothing
    has been retained. *)
Theorem visit_prologue_errors arr s :
  (depth (enc s) <= 0 -> visit' arr s = (Err errMaxRecursion, s)) /\
  (0 < depth (enc s) -> allow64b (enc s) = false -> MaxInt32 < Array_Len arr ->
   visit' arr s = (Err errBigArray, s)).
Proof.
  split.
  - intros Hle. rewrite visit_unfold. apply visit_fuel_exhausted. exact Hle.
  - intros Hpos Ha Hbig. rewrite visit_unfold.
    destruct (Z.to_nat (depth (enc s))) as [|n] eqn:En; [lia|].
    cbn [visit_fuel]. unfold bind, gets, fail.
    apply Z.leb_gt in Hpos. rewrite Hpos, Ha.
    apply Z.gtb_lt in Hbig. rewrite Hbig. reflexivity.
Qed.

(** *** The second pass, whatever the lengths *)

Lemma layout_length (bufs : list (option Buffer)) :
  forall offset, length (fst (layout bufs offset)) = length bufs.
Proof.
  induction bufs as [|buf rest IH]; intros offset; simpl; [reflexivity|].
  match goal with
  | |- context [layout rest ?o] =>
      specialize (IH o); destruct (layout rest o) as [ms off']
  end.
  simpl in *. rewrite IH. reflexivity.
Qed.

Lemma layout_aligned (bufs : list (option Buffer)) (base : Z) :
  forall offset,
    (offset - base) mod 8 = 0 ->
    Forall (fun m => bm_Len m mod 8 = 0 /\ (bm_Offset m - base) mod 8 = 0)
           (fst (layout bufs offset)).
Proof.
  induction bufs as [|buf rest IH]; intros offset Hoff; simpl; [constructor|].
  fold (bufLen buf). destruct (entry_cong buf) as [k E].
  assert (Int64.add (bufLen buf)
            (match buf with
             | Some _ => Int64.sub (bitutil.CeilByte64 (bufLen buf)) (bufLen buf)
             | None => 0
             end) mod 8 = 0) as Hlen.
  { rewrite E, Z.mul_comm. apply Z_mod_mult. }
  match goal with
  | |- context [layout rest ?o] =>
      assert ((o - base) mod 8 = 0) as Hnext;
      [|specialize (IH o Hnext); destruct (layout rest o) as [ms off']]
  end.
  { unfold Int64.add at 1.
    match goal with |- context [Int64.wrap ?z] => destruct (wrap_cong z) as [k2 E2] end.
    rewrite E2, E.
    replace (offset + 8 * k + 8 * k2 - base) with ((offset - base) + (k + k2) * 8) by ring.
    rewrite Z_mod_plus_full. exact Hoff. }
  simpl. constructor; [|exact IH]. simpl. split; [|exact Hoff].
  destruct buf; exact Hlen.
Qed.

(** *** [Encode] *)

Variable writeRecordMessage :
  Z -> Z -> list fieldMetadata -> list bufferMetadata -> list byte.

Local Abbreviation Encode' := (Encode kArrowAlignment NewSlice writeRecordMessage).

(** [Encode] in terms of its two passes: the alignment check never
    fails. *)
Lemma Encode_unfold cols nrows s :
  Encode' cols nrows s =
    match visitColumns kArrowAlignment NewSlice cols s with
    | (Ok _, s1) =>
        let ms := fst (layout (body (pay s1)) (start (enc s1))) in
        let sz := Int64.sub (snd (layout (body (pay s1)) (start (enc s1))))
                            (start (enc s1)) in
        (Ok tt,
         set_pmeta (writeRecordMessage nrows sz (fields (enc s1)) ms)
           (set_size sz (set_meta ms s1)))
    | (Err e, s1) => (Err e, s1)
    | (Panic p, s1) => (Panic p, s1)
    | (OutOfFuel, s1) => (OutOfFuel, s1)
    end.
Proof.
  unfold Encode, bind at 1.
  destruct (visitColumns kArrowAlignment NewSlice cols s) as [[[]|e|p|] s1];
    try reflexivity.
  unfold bind, gets. cbv beta iota zeta.
  pose proof (layout_size_mod8 (body (pay s1)) (start (enc s1))) as Hm.
  apply IsMultipleOf8_mod in Hm.
  destruct (layout (body (pay s1)) (start (enc s1))) as [ms off].
  unfold modify, encodeMetadata, bind, gets. simpl in *. rewrite Hm. reflexivity.
Qed.

(** An error of [Encode] whose cause is the recursion error tells that
    some column is nested deeper than the depth budget. *)
Lemma Encode_error_depth cols nrows s e s' :
  Encode' cols nrows s = (Err e, s') ->
  0 <= depth (enc s) <= Int64.max_int ->
  keepsNesting NewSlice ->
  Cause e = errMaxRecursion ->
  depth (enc s) < Z.of_nat (maxNesting cols).
Proof.
  intros E. rewrite Encode_unfold in E.
  pose proof (visitColumns_shape cols s) as H. unfold wp in H.
  destruct (visitColumns kArrowAlignment NewSlice cols s) as [[[]|e1|p|] s1];
    try discriminate.
  injection E as <- <-. cbn [fst snd] in H.
  destruct H as (fs & bs & _ & _ & C). exact C.
Qed.

(** X11: the alignment check of [Encode] never fails: whatever the
    buffers and the base offset, the size computed by the second pass
    passes [IsMultipleOf8], and whatever the columns and the state,
    [Encode] does not panic with "not aligned". *)
Theorem Encode_alignment_check_never_fails cols nrows s :
  (forall bufs base,
     bitutil.IsMultipleOf8 (Int64.sub (snd (layout bufs base)) base) = true) /\
  fst (Encode' cols nrows s) <> Panic NotAligned.
Proof.
  split.
  - intros bufs base. apply IsMultipleOf8_mod, layout_size_mod8.
  - pose proof (Encode_post_holds kArrowAlignment NewSlice writeRecordMessage
                  cols nrows s) as H.
    unfold wp, encode_post in H. destruct H as (_ & _ & H).
    destruct (fst (Encode' cols nrows s)); try discriminate.
    intros [= ->]. exact (H eq_refl).
Qed.

(** X12: after an [Encode] that succeeds there is one buffer-metadata entry
    for every body entry, and every recorded length, and every recorded
    offset counted from the base offset, is a multiple of 8, also when the
    [int64] arithmetic of the second pass wraps around. *)
Theorem Encode_meta_aligned cols nrows s s' :
  Encode kArrowAlignment NewSlice writeRecordMessage cols nrows s = (Ok tt, s') ->
  length (meta (enc s')) = length (body (pay s')) /\
  Forall (fun m => bm_Len m mod 8 = 0 /\ (bm_Offset m - start (enc s)) mod 8 = 0)
         (meta (enc s')).
Proof.
  intros E. rewrite Encode_unfold in E.
  pose proof (visitColumns_post kArrowAlignment NewSlice cols s) as H.
  unfold wp in H. destruct H as (_ & _ & Hs & _).
  destruct (visitColumns kArrowAlignment NewSlice cols s) as [[[]|e|p|] s1];
    try discriminate.
  cbv zeta in E. injection E as <-. cbn [fst snd] in Hs. simpl. split.
  - apply layout_length.
  - rewrite <- Hs. apply layout_aligned. rewrite Z.sub_diag. reflexivity.
Qed.

(** X13: an [Encode] that succeeds leaves in the payload the header that
    [writeRecordMessage] builds from the number of rows and from the size,
    the field metadata and the buffer metadata it has just computed; the
    message type is untouched; the field metadata and the body have only
    grown, by one field entry per node and by the body entries of the
    columns when slicing keeps the shape of arrays; every buffer has been
    retained once per occurrence among the entries added; and the depth
    budget is what it was. *)
Theorem Encode_result cols nrows s s' :
  Encode' cols nrows s = (Ok tt, s') ->
  pmeta (pay s') =
    Some (writeRecordMessage nrows (size (pay s')) (fields (enc s')) (meta (enc s'))) /\
  msg (pay s') = msg (pay s) /\
  (depth (enc s) <= Int64.max_int -> depth (enc s') = depth (enc s)) /\
  exists fs bs,
    fields (enc s') = fields (enc s) ++ fs /\
    body (pay s') = body (pay s) ++ bs /\
    refs s' = retainAll bs (refs s) /\
    (keepsShape NewSlice ->
     length fs = nodeCounts cols /\ length bs = bufferCounts cols).
Proof.
  intros E. rewrite Encode_unfold in E.
  pose proof (visitColumns_shape cols s) as H.
  pose proof (fun Hmax => visitColumns_depth cols s (snd (visitColumns kArrowAlignment NewSlice cols s)) Hmax) as Hd.
  unfold wp in H.
  destruct (visitColumns kArrowAlignment NewSlice cols s) as [[[]|e|p|] s1];
    try discriminate.
  cbv zeta in E. injection E as <-. cbn [fst snd] in H, Hd.
  destruct H as (fs & bs & (F & B & M & G & P & Z & O) & R & C).
  simpl. repeat split; try assumption.
  - intros Hmax. exact (Hd Hmax eq_refl).
  - exists fs, bs. repeat split; try assumption; apply C; assumption.
Qed.

(** X14: an [Encode] that returns an error has returned from the first
    pass: the buffer metadata, the size and the header of the payload are
    untouched, and the buffers appended so far stay retained, once per
    entry, for the caller to release. *)
Theorem Encode_error_stops_first_pass cols nrows s e s' :
  Encode' cols nrows s = (Err e, s') ->
  meta (enc s') = meta (enc s) /\
  size (pay s') = size (pay s) /\
  pmeta (pay s') = pmeta (pay s) /\
  exists bs,
    body (pay s') = body (pay s) ++ bs /\
    refs s' = retainAll bs (refs s).
Proof.
  intros E. rewrite Encode_unfold in E.
  pose proof (visitColumns_shape cols s) as H. unfold wp in H.
  destruct (visitColumns kArrowAlignment NewSlice cols s) as [[[]|e1|p|] s1];
    try discriminate.
  injection E as <- <-. cbn [fst snd] in H.
  destruct H as (fs & bs & (F & B & M & G & P & Z & O) & R & _).
  repeat split; try assumption. exists bs. split; assumption.
Qed.

End ShapeFacts.

(** ** The stream writer *)

Section WriterFacts.
Context {Schema Sink : Type}.
Variable Schema_Equal : Schema -> option Schema -> bool.
Variable io_Write : Sink -> list byte -> Z * option error * Sink.
Variable kEOS : list byte.
Variable kMaxNestingDepth : Z.
Variable kArrowAlignment : Z.
Variable payloadsFromSchema : option Schema -> list payload.
Variable writeIPCPayload : Sink * Z -> payload -> Z * option error * (Sink * Z).
Variable NewSlice : Array -> Z -> Z -> option Array.
Variable writeRecordMessage :
  Z -> Z -> list fieldMetadata -> list bufferMetadata -> list byte.

Local Abbreviation Stream := (Stream Schema Sink).
Local Abbreviation Close' := (@Close Schema Sink io_Write kEOS).
Local Abbreviation Writer_start' :=
  (@Writer_start Schema Sink payloadsFromSchema writeIPCPayload).
Local Abbreviation startIfNeeded' :=
  (@startIfNeeded Schema Sink payloadsFromSchema writeIPCPayload).
Local Abbreviation run_Encode' :=
  (@run_Encode Schema Sink kMaxNestingDepth kArrowAlignment NewSlice writeRecordMessage).
Local Abbreviation encodeAndWrite' :=
  (@encodeAndWrite Schema Sink kMaxNestingDepth kArrowAlignment writeIPCPayload
     NewSlice writeRecordMessage).
Local Abbreviation Write' :=
  (Write Schema_Equal kMaxNestingDepth kArrowAlignment payloadsFromSchema
     writeIPCPayload NewSlice writeRecordMessage).
Local Abbreviation sameSchema' := (sameSchema Schema_Equal).
Local Abbreviation visit' := (visit kArrowAlignment NewSlice).

Lemma with_pw_closed method (s : Stream) :
  closed s -> with_pw method s = (Panic NilDereference, s).
Proof. unfold closed, with_pw. intros ->. reflexivity. Qed.

Lemma with_pw_schema method (s : Stream) :
  schema (writer (snd (with_pw method s))) = schema (writer s).
Proof.
  unfold with_pw. destruct (pw (writer s)) as [pos|]; [|reflexivity].
  destruct (method (w_sink (writer s), pos)) as [[n [e|]] [sink' pos']]; reflexivity.
Qed.

Lemma payloads_Release_writer ps (s : Stream) :
  writer (payloads_Release ps s) = writer s.
Proof.
  revert s. induction ps as [|p ps IH]; intros s; simpl; [reflexivity|].
  unfold payloads_Release in *. simpl. rewrite IH. reflexivity.
Qed.

Lemma writePayloads_schema ps (s : Stream) :
  schema (writer (snd (writePayloads writeIPCPayload ps s))) = schema (writer s).
Proof.
  revert s. induction ps as [|p ps IH]; intros s; simpl; [reflexivity|].
  unfold bind, swriter_write.
  pose proof (with_pw_schema (fun sw => writeIPCPayload sw p) s) as H.
  destruct (with_pw (fun sw => writeIPCPayload sw p) s) as [[[]|e|q|] s1];
    simpl in *; try assumption.
  rewrite IH. assumption.
Qed.

Lemma Writer_start_schema (s : Stream) :
  schema (writer (snd (Writer_start' s))) = schema (writer s).
Proof.
  unfold Writer_start, bind, modify, gets, defer. simpl.
  match goal with
  | |- context [writePayloads _ ?ps ?s1] =>
      pose proof (writePayloads_schema ps s1) as H;
      destruct (writePayloads writeIPCPayload ps s1) as [r s2]
  end.
  simpl in *. rewrite payloads_Release_writer. assumption.
Qed.

Lemma writePayloads_closed ps (s : Stream) :
  closed s ->
  writePayloads writeIPCPayload ps s =
    (match ps with [] => Ok tt | _ => Panic NilDereference end, s).
Proof.
  intros Hc. destruct ps as [|p ps]; simpl; [reflexivity|].
  unfold bind, swriter_write. rewrite with_pw_closed by assumption. reflexivity.
Qed.

(** On a closed stream [start] writes nothing: it only sets the flag and
    releases the schema payloads. *)
Lemma Writer_start_closed (s : Stream) :
  closed s ->
  is_nil (pw (writer (snd (Writer_start' s)))) = true /\
  w_sink (writer (snd (Writer_start' s))) = w_sink (writer s) /\
  (fst (Writer_start' s) = Ok tt \/ fst (Writer_start' s) = Panic NilDereference).
Proof.
  intros Hc. unfold Writer_start, bind, modify, gets, defer. simpl.
  rewrite writePayloads_closed by exact Hc. simpl.
  rewrite payloads_Release_writer. simpl. unfold closed in Hc. rewrite Hc.
  repeat split. destruct (payloadsFromSchema _); auto.
Qed.

(** The encoder run by [Write] always produces an outcome of the Go
    function when the depth constant is a non-negative [int64]. *)
Lemma run_Encode_post rec (s : Stream) :
  encode_post (keepsNesting NewSlice) (maxNesting (rec_columns rec))
    (mkSt (newRecordEncoder 0 kMaxNestingDepth true)
          (mkPayload MessageRecordBatch None [] 0) (s_refs s) (s_views s))
    (fst (run_Encode' rec s)) (snd (run_Encode' rec s)).
Proof. apply Encode_post_holds. Qed.

(** Whatever the encoder returns, releasing the payload gives every buffer
    the references it had before the call. *)
Lemma encodeAndWrite_error rec (s : Stream) e st :
  run_Encode' rec s = (Err e, st) ->
  encodeAndWrite' rec s =
    (Err (Wrap "arrow/ipc: could not encode record to payload" e), s).
Proof.
  intros HE. pose proof (run_Encode_post rec s) as H. rewrite HE in H.
  destruct H as (Hv & _ & Hb & _). simpl in Hv, Hb.
  unfold encodeAndWrite. rewrite HE. unfold defer, fail, payload_Release, sync.
  simpl. unfold balance in Hb. simpl in Hb. rewrite Hb, Hv. destruct s; reflexivity.
Qed.

(** *** [Close] *)

Lemma Close_closed (s : Stream) : closed s -> Close' s = (Ok tt, s).
Proof.
  unfold closed, Close, bind, gets. intros ->. reflexivity.
Qed.

(** [Close] on a stream that still has its payload writer. *)
Lemma Close_open (s : Stream) (pos : Z) :
  pw (writer s) = Some pos ->
  Close' s =
    let '(n, err, sink') := io_Write (w_sink (writer s)) kEOS in
    match err with
    | Some e =>
        (Err (Wrap "arrow/ipc: could not close payload writer" e),
         mkStream (mkWriter sink' (Some (Int64.add pos n))
                            (started (writer s)) (schema (writer s)))
                  (s_refs s) (s_views s))
    | None =>
        (Ok tt,
         mkStream (mkWriter sink' None (started (writer s)) (schema (writer s)))
                  (s_refs s) (s_views s))
    end.
Proof.
  intros Hpw.
  unfold Close, bind, gets, wrapErr, swriter_Close, with_pw, modify,
    swriter_Write.
  rewrite Hpw. simpl. rewrite Hpw.
  destruct (io_Write (w_sink (writer s)) kEOS) as [[n [e|]] sink']; reflexivity.
Qed.

Lemma Close_ok_closed (s s1 : Stream) : Close' s = (Ok tt, s1) -> closed s1.
Proof.
  destruct (pw (writer s)) as [pos|] eqn:E.
  - rewrite (Close_open s pos E).
    destruct (io_Write (w_sink (writer s)) kEOS) as [[n [e|]] sink'];
      intros [= <-]; reflexivity.
  - rewrite Close_closed by exact E. intros [= <-]. exact E.
Qed.

(** C8: the first [Close], when the sink accepts the write, has written
    the end-of-stream sentinel to the sink and left the writer without
    payload writer; from then on every [Close] returns success and changes
    nothing. *)
Theorem Close_idempotent (s s1 : Stream) (pos : Z) :
  pw (writer s) = Some pos ->
  Close' s = (Ok tt, s1) ->
  (exists n, io_Write (w_sink (writer s)) kEOS = (n, None, w_sink (writer s1))) /\
  closed s1 /\
  Close' s1 = (Ok tt, s1) /\
  (forall s2 : Stream, closed s2 -> Close' s2 = (Ok tt, s2)).
Proof.
  intros Hpw HC.
  pose proof (Close_ok_closed _ _ HC) as Hc.
  split; [|split; [exact Hc|split; [exact (Close_closed _ Hc)|exact Close_closed]]].
  rewrite (Close_open s pos Hpw) in HC.
  destruct (io_Write (w_sink (writer s)) kEOS) as [[n [e|]] sink'];
    inversion HC; subst. exists n. reflexivity.
Qed.

(** *** [Write] *)

Lemma startIfNeeded_started (s : Stream) :
  started (writer s) = true -> startIfNeeded' s = (Ok tt, s).
Proof. unfold startIfNeeded, bind, gets. intros ->. reflexivity. Qed.

Lemma startIfNeeded_fresh (s : Stream) :
  started (writer s) = false -> startIfNeeded' s = Writer_start' s.
Proof. unfold startIfNeeded, bind, gets. intros ->. reflexivity. Qed.

Lemma startIfNeeded_schema (s : Stream) :
  schema (writer (snd (startIfNeeded' s))) = schema (writer s).
Proof.
  destruct (started (writer s)) eqn:E.
  - rewrite startIfNeeded_started by assumption. reflexivity.
  - rewrite startIfNeeded_fresh by assumption. apply Writer_start_schema.
Qed.

Lemma sameSchema_ext rec (w w' : Writer Schema Sink) :
  schema w' = schema w -> sameSchema' rec w' = sameSchema' rec w.
Proof. unfold sameSchema. intros ->. reflexivity. Qed.

(** [Write] in terms of its three steps. *)
Lemma Write_unfold rec (s : Stream) :
  Write' rec s =
    match startIfNeeded' s with
    | (Ok _, s1) =>
        if sameSchema' rec (writer s1) then encodeAndWrite' rec s1
        else (Err errInconsistentSchema, s1)
    | (Err e, s1) => (Err e, s1)
    | (Panic p, s1) => (Panic p, s1)
    | (OutOfFuel, s1) => (OutOfFuel, s1)
    end.
Proof.
  unfold Write, bind at 1.
  destruct (startIfNeeded' s) as [[[]|e|p|] s1]; try reflexivity.
  unfold bind, gets, fail. destruct (sameSchema' rec (writer s1)); reflexivity.
Qed.

(** C1 (as the code has it): a record whose schema is nil or differs from
    the bound schema is refused with [errInconsistentSchema].  On a writer
    that has started, the call leaves the stream, hence the sink, as it
    was.  On a writer that has not, the call runs [start] first, which
    writes the schema payloads, and nothing else is written. *)
Theorem Write_inconsistent_schema rec (s : Stream) :
  sameSchema' rec (writer s) = false ->
  (started (writer s) = true -> Write' rec s = (Err errInconsistentSchema, s)) /\
  (started (writer s) = false ->
   Write' rec s =
     (match fst (Writer_start' s) with
      | Ok _ => Err errInconsistentSchema
      | r => r
      end, snd (Writer_start' s))).
Proof.
  intros Hne. split; intros Hst; rewrite Write_unfold.
  - rewrite startIfNeeded_started by assumption. rewrite Hne. reflexivity.
  - pose proof (startIfNeeded_schema s) as Hs.
    rewrite startIfNeeded_fresh in Hs by assumption.
    rewrite startIfNeeded_fresh by assumption.
    destruct (Writer_start' s) as [[[]|e|p|] s1]; try reflexivity.
    simpl in Hs. simpl. rewrite (sameSchema_ext rec _ _ Hs), Hne. reflexivity.
Qed.

(** C7 (as the code has it): with a depth constant that is a non-negative
    [int64], [visit] never succeeds on an array nested deeper than the
    depth budget: either it returns an error, whose cause is the recursion
    error, or the big-array error when the encoder does not allow 64-bit
    lengths, or one of the panics of the code stops the traversal before
    the budget is exhausted.  When the encoder returns an error, [Write]
    returns it wrapped and the deferred release of the payload leaves the
    stream as it was before the encoding, every reference retained for the
    payload given back.  So a record with a column nested deeper than the
    depth constant is never written: either [Write] returns an error whose
    cause is the recursion error, nothing staying retained, or the encoder
    panics and so does [Write]. *)
Theorem too_deep_is_rejected :
  0 <= kMaxNestingDepth <= Int64.max_int ->
  keepsNesting NewSlice ->
  (forall arr s,
     depth (enc s) <= Int64.max_int ->
     depth (enc s) < Z.of_nat (nesting arr) ->
     (exists e s',
        visit' arr s = (Err e, s') /\
        (Cause e = errMaxRecursion \/
         (Cause e = errBigArray /\ allow64b (enc s) = false))) \/
     (exists p s', visit' arr s = (Panic p, s'))) /\
  (forall rec (s : Stream) e st,
     run_Encode' rec s = (Err e, st) ->
     encodeAndWrite' rec s =
       (Err (Wrap "arrow/ipc: could not encode record to payload" e), s)) /\
  (forall rec (s s1 : Stream) col,
     startIfNeeded' s = (Ok tt, s1) ->
     sameSchema' rec (writer s1) = true ->
     In col (rec_columns rec) ->
     kMaxNestingDepth < Z.of_nat (nesting col) ->
     (exists e, Write' rec s = (Err e, s1) /\ Cause e = errMaxRecursion) \/
     (exists p, fst (run_Encode' rec s1) = Panic p /\ fst (Write' rec s) = Panic p)).
Proof.
  intros Hk K. split; [|split].
  - intros arr s Hmax Hdeep.
    pose proof (visit_too_deep_fails kArrowAlignment NewSlice arr s K Hmax Hdeep) as Hf.
    pose proof (visit_total kArrowAlignment NewSlice arr s Hmax) as Ht.
    pose proof (visit_errors kArrowAlignment NewSlice arr s) as He.
    destruct (visit' arr s) as [[u|e|p|] s'] eqn:E; cbn [fst] in *.
    + exfalso. exact (Hf u eq_refl).
    + left. exists e, s'. split; [reflexivity|]. exact (He e eq_refl).
    + right. exists p, s'. reflexivity.
    + exfalso. exact (Ht eq_refl).
  - apply encodeAndWrite_error.
  - intros rec s s1 col Hstart Hsame Hin Hcol.
    assert (kMaxNestingDepth < Z.of_nat (maxNesting (rec_columns rec))) as Hdeep.
    { pose proof (maxNesting_ge _ _ Hin). lia. }
    rewrite Write_unfold, Hstart, Hsame.
    pose proof (run_Encode_post rec s1) as H.
    pose proof (encodeAndWrite_error rec s1) as Herr.
    unfold encodeAndWrite in *.
    destruct (run_Encode' rec s1) as [r st] eqn:HE.
    destruct H as (_ & _ & H). simpl in H.
    destruct r as [[]|e|p|].
    + destruct H as (_ & _ & _ & H). specialize (H Hk K). lia.
    + rewrite (Herr e st eq_refl). left.
      eexists. split; [reflexivity|]. simpl.
      destruct H as (_ & [H|[_ H]]); [exact H|discriminate].
    + right. exists p. split; reflexivity.
    + exfalso. exact (H Hk).
Qed.

(** C9: once [Close] has succeeded, a [Write] does not succeed: it returns
    an error or panics, the sink receives nothing, and the stream stays
    closed. *)
Theorem Write_after_Close (s0 s : Stream) rec :
  0 <= kMaxNestingDepth <= Int64.max_int ->
  Close' s0 = (Ok tt, s) ->
  ((exists e, fst (Write' rec s) = Err e) \/ (exists p, fst (Write' rec s) = Panic p)) /\
  w_sink (writer (snd (Write' rec s))) = w_sink (writer s) /\
  closed (snd (Write' rec s)).
Proof.
  intros Hk HC. pose proof (Close_ok_closed _ _ HC) as Hc. clear HC s0.
  assert (exists r s1, startIfNeeded' s = (r, s1) /\
            closed s1 /\ w_sink (writer s1) = w_sink (writer s) /\
            (r = Ok tt \/ r = Panic NilDereference)) as (r & s1 & Hs & Hc1 & Hw1 & Hr).
  { destruct (started (writer s)) eqn:E.
    - exists (Ok tt), s. rewrite startIfNeeded_started by assumption. auto.
    - rewrite startIfNeeded_fresh by assumption.
      destruct (Writer_start_closed s Hc) as (H1 & H2 & H3).
      destruct (Writer_start' s) as [r s1]. exists r, s1. simpl in *.
      repeat split; try assumption. unfold closed.
      destruct (pw (writer s1)); [discriminate|reflexivity]. }
  rewrite Write_unfold, Hs.
  destruct Hr as [-> | ->].
  2:{ simpl. split; [right; eauto|]. split; assumption. }
  destruct (sameSchema' rec (writer s1)).
  2:{ simpl. split; [left; eauto|]. split; assumption. }
  unfold encodeAndWrite.
  pose proof (run_Encode_post rec s1) as H.
  destruct (run_Encode' rec s1) as [r st]. destruct H as (_ & _ & H). simpl in H.
  unfold defer, sync, payload_Release, swriter_write.
  destruct r as [[]|e|p|].
  - rewrite with_pw_closed by exact Hc1. simpl.
    split; [right; eauto|]. split; assumption.
  - simpl. split; [left; eauto|]. split; assumption.
  - simpl. split; [right; eauto|]. split; assumption.
  - exfalso. exact (H Hk).
Qed.

End WriterFacts.

(** ** What the writer leaves behind *)

Section WriterFrame.
Context {Schema Sink : Type}.
Variable Schema_Equal : Schema -> option Schema -> bool.
Variable io_Write : Sink -> list byte -> Z * option error * Sink.
Variable kEOS : list byte.
Variable kMaxNestingDepth : Z.
Variable kArrowAlignment : Z.
Variable payloadsFromSchema : option Schema -> list payload.
Variable writeIPCPayload : Sink * Z -> payload -> Z * option error * (Sink * Z).
Variable NewSlice : Array -> Z -> Z -> option Array.
Variable writeRecordMessage :
  Z -> Z -> list fieldMetadata -> list bufferMetadata -> list byte.

Local Abbreviation Stream := (Stream Schema Sink).
Local Abbreviation Close' := (@Close Schema Sink io_Write kEOS).
Local Abbreviation Writer_start' :=
  (@Writer_start Schema Sink payloadsFromSchema writeIPCPayload).
Local Abbreviation startIfNeeded' :=
  (@startIfNeeded Schema Sink payloadsFromSchema writeIPCPayload).
Local Abbreviation run_Encode' :=
  (@run_Encode Schema Sink kMaxNestingDepth kArrowAlignment NewSlice writeRecordMessage).
Local Abbreviation encodeAndWrite' :=
  (@encodeAndWrite Schema Sink kMaxNestingDepth kArrowAlignment writeIPCPayload
     NewSlice writeRecordMessage).
Local Abbreviation Write' :=
  (Write Schema_Equal kMaxNestingDepth kArrowAlignment payloadsFromSchema
     writeIPCPayload NewSlice writeRecordMessage).
Local Abbreviation sameSchema' := (sameSchema Schema_Equal).

Lemma onlyWrote_refl (s : Stream) : onlyWrote s s.
Proof. unfold onlyWrote. auto. Qed.

Lemma onlyWrote_trans (s s1 s2 : Stream) :
  onlyWrote s s1 -> onlyWrote s1 s2 -> onlyWrote s s2.
Proof.
  unfold onlyWrote. intros (A & B & C & D & E) (A' & B' & C' & D' & E').
  rewrite A', B', C', D', E'. auto.
Qed.

Lemma with_pw_onlyWrote method (s : Stream) :
  onlyWrote s (snd (with_pw method s)) /\ fst (with_pw method s) <> OutOfFuel.
Proof.
  unfold with_pw, onlyWrote. destruct (pw (writer s)) as [pos|] eqn:E.
  - destruct (method (w_sink (writer s), pos)) as [[n [e|]] [sink' pos']];
      simpl; rewrite ?E; repeat split; discriminate.
  - simpl. rewrite E. repeat split. discriminate.
Qed.

Lemma writePayloads_onlyWrote ps (s : Stream) :
  onlyWrote s (snd (writePayloads writeIPCPayload ps s)) /\
  fst (writePayloads writeIPCPayload ps s) <> OutOfFuel.
Proof.
  revert s. induction ps as [|p ps IH]; intros s; simpl.
  - split; [apply onlyWrote_refl|discriminate].
  - unfold bind, swriter_write.
    destruct (with_pw_onlyWrote (fun sw => writeIPCPayload sw p) s) as [H Hf].
    destruct (with_pw (fun sw => writeIPCPayload sw p) s) as [[[]|e|q|] s1];
      simpl in *; try (split; [assumption|discriminate]).
    + destruct (IH s1) as [H1 Hf1]. split; [|assumption].
      eapply onlyWrote_trans; eassumption.
    + contradiction.
Qed.

Lemma payloads_Release_refs ps (s : Stream) :
  payloads_Release ps s =
    mkStream (writer s) (releasePayloads ps (s_refs s)) (s_views s).
Proof.
  revert s. induction ps as [|p ps IH]; intros s.
  - destruct s; reflexivity.
  - unfold payloads_Release, releasePayloads in *. simpl. rewrite IH. reflexivity.
Qed.

(** What [start] leaves, however it is left. *)
Lemma Writer_start_frame (s : Stream) :
  started (writer (snd (Writer_start' s))) = true /\
  schema (writer (snd (Writer_start' s))) = schema (writer s) /\
  is_nil (pw (writer (snd (Writer_start' s)))) = is_nil (pw (writer s)) /\
  s_refs (snd (Writer_start' s)) =
    releasePayloads (payloadsFromSchema (schema (writer s))) (s_refs s) /\
  s_views (snd (Writer_start' s)) = s_views s /\
  fst (Writer_start' s) <> OutOfFuel.
Proof.
  unfold Writer_start, bind, modify, gets, defer. simpl.
  match goal with
  | |- context [writePayloads _ ?ps ?s1] =>
      destruct (writePayloads_onlyWrote ps s1) as [(A & B & C & D & E) Hf];
      destruct (writePayloads writeIPCPayload ps s1) as [r s2]
  end.
  simpl in *. rewrite payloads_Release_refs. simpl. rewrite D. exact (conj A (conj B (conj C (conj eq_refl (conj E Hf))))).
Qed.

(** What the encoding and the writing of a record leave. *)
Lemma encodeAndWrite_frame rec (s : Stream) :
  started (writer (snd (encodeAndWrite' rec s))) = started (writer s) /\
  schema (writer (snd (encodeAndWrite' rec s))) = schema (writer s) /\
  is_nil (pw (writer (snd (encodeAndWrite' rec s)))) = is_nil (pw (writer s)) /\
  s_views (snd (encodeAndWrite' rec s)) = s_views s /\
  (forall r, fst (encodeAndWrite' rec s) = r -> (r = Ok tt \/ exists e, r = Err e) ->
     s_refs (snd (encodeAndWrite' rec s)) = s_refs s).
Proof.
  pose proof (run_Encode_post kMaxNestingDepth kArrowAlignment NewSlice
                writeRecordMessage rec s) as H.
  unfold encodeAndWrite.
  destruct (run_Encode' rec s) as [r st]. destruct H as (Hv & _ & H).
  cbn [fst snd views] in Hv, H.
  unfold defer, sync, payload_Release.
  destruct r as [[]|e|p|].
  - destruct H as (Hb & _).
    destruct (with_pw_onlyWrote (fun sw => writeIPCPayload sw (pay st))
                (mkStream (writer s) (refs st) (views st))) as [(A & B & C & D & E) Hf].
    unfold swriter_write.
    destruct (with_pw (fun sw => writeIPCPayload sw (pay st))
                (mkStream (writer s) (refs st) (views st))) as [r2 s2].
    simpl in *. rewrite D, E. unfold balance in Hb. simpl in Hb. rewrite Hb. auto.
  - destruct H as (Hb & _). simpl. unfold balance in Hb. simpl in Hb. rewrite Hb. auto.
  - simpl. repeat split; try assumption. intros r <- [Hr|[e Hr]]; discriminate.
  - simpl. repeat split; try assumption. intros r <- [Hr|[e Hr]]; discriminate.
Qed.

(** What the first statement of [Write] leaves, however it is left. *)
Lemma startIfNeeded_frame (s : Stream) :
  started (writer (snd (startIfNeeded' s))) = true /\
  schema (writer (snd (startIfNeeded' s))) = schema (writer s) /\
  is_nil (pw (writer (snd (startIfNeeded' s)))) = is_nil (pw (writer s)) /\
  s_refs (snd (startIfNeeded' s)) =
    (if started (writer s) then s_refs s
     else releasePayloads (payloadsFromSchema (schema (writer s))) (s_refs s)) /\
  s_views (snd (startIfNeeded' s)) = s_views s.
Proof.
  destruct (started (writer s)) eqn:E.
  - rewrite startIfNeeded_started by assumption. simpl. auto.
  - rewrite startIfNeeded_fresh by assumption.
    destruct (Writer_start_frame s) as (A & B & C & D & F & _). auto.
Qed.

(** What [Write] leaves, however it is left. *)
Lemma Write_frame rec (s : Stream) :
  started (writer (snd (Write' rec s))) = true /\
  schema (writer (snd (Write' rec s))) = schema (writer s) /\
  is_nil (pw (writer (snd (Write' rec s)))) = is_nil (pw (writer s)) /\
  s_views (snd (Write' rec s)) = s_views s /\
  (fst (Write' rec s) = Ok tt \/ (exists e, fst (Write' rec s) = Err e) ->
   s_refs (snd (Write' rec s)) = s_refs (snd (startIfNeeded' s))).
Proof.
  rewrite Write_unfold.
  destruct (startIfNeeded_frame s) as (A & B & C & _ & F).
  destruct (startIfNeeded' s) as [[[]|e|p|] s1]; cbn [fst snd] in *.
  2-4: repeat split; try assumption; reflexivity.
  destruct (sameSchema' rec (writer s1)).
  - destruct (encodeAndWrite_frame rec s1) as (A1 & B1 & C1 & F1 & R1).
    rewrite A1, B1, C1, F1. repeat split; try assumption.
    exact (R1 _ eq_refl).
  - cbn [fst snd]. repeat split; try assumption; reflexivity.
Qed.

(** ** What a call to [Write] leaves behind *)

(** X15: whatever the record and however [Write] is left, the writer is
    started afterwards, also when the schema payloads could not be written,
    so that no later call writes them again; the schema bound to the writer
    is the same; the writer has a payload writer exactly if it had one; and
    no temporary view of an array is left alive. *)
Theorem Write_keeps_binding rec (s : Stream) :
  started (writer (snd (Write' rec s))) = true /\
  schema (writer (snd (Write' rec s))) = schema (writer s) /\
  is_nil (pw (writer (snd (Write' rec s)))) = is_nil (pw (writer s)) /\
  s_views (snd (Write' rec s)) = s_views s.
Proof.
  destruct (Write_frame rec s) as (A & B & C & D & _). auto.
Qed.

(** X16: a [Write] that returns, with or without an error, has given back
    every reference it took: on a started writer the reference counts are
    those before the call, also when the sink refused the payload; on a
    writer that had to start they are those left by the release of the
    schema payloads. *)
Theorem Write_releases rec (s : Stream) r s' :
  Write' rec s = (r, s') ->
  (r = Ok tt \/ exists e, r = Err e) ->
  s_refs s' =
    if started (writer s) then s_refs s
    else releasePayloads (payloadsFromSchema (schema (writer s))) (s_refs s).
Proof.
  intros E Hr.
  destruct (Write_frame rec s) as (_ & _ & _ & _ & R).
  destruct (startIfNeeded_frame s) as (_ & _ & _ & D & _).
  rewrite E in R. cbn [fst snd] in R. rewrite <- D. apply R.
  destruct Hr as [->|[e ->]]; eauto.
Qed.

(** The encoding and the writing of a record that the encoder accepts. *)
Lemma encodeAndWrite_ok rec (s : Stream) pos st :
  pw (writer s) = Some pos ->
  run_Encode' rec s = (Ok tt, st) ->
  encodeAndWrite' rec s =
    let '(_, err, (sink', pos')) := writeIPCPayload (w_sink (writer s), pos) (pay st) in
    (match err with Some e => Err e | None => Ok tt end,
     mkStream (mkWriter sink' (Some pos') (started (writer s)) (schema (writer s)))
              (s_refs s) (s_views s)).
Proof.
  intros Hpw HE.
  pose proof (run_Encode_post kMaxNestingDepth kArrowAlignment NewSlice
                writeRecordMessage rec s) as H.
  unfold encodeAndWrite. rewrite HE in *. cbn [fst snd] in H.
  destruct H as (Hv & _ & Hb & _). cbn [views refs body pay] in Hv, Hb.
  unfold balance in Hb. cbn [refs body pay releaseAll foldl] in Hb.
  unfold defer, swriter_write, with_pw, sync, payload_Release. cbn [writer w_sink pw].
  rewrite Hpw.
  destruct (writeIPCPayload (w_sink (writer s), pos) (pay st)) as [[n [e|]] [sink' pos']];
    cbn [set_writer writer s_refs s_views started schema];
    rewrite Hb, Hv; reflexivity.
Qed.

(** X17: on a started writer that has its payload writer, a record of the
    bound schema that the encoder accepts is written by one call to
    [writeIPCPayload] on the encoded payload; [Write] returns the error of
    that call as it is, the sink and the position are those the call left,
    and the reference counts and the views are those before the call. *)
Theorem Write_encodes_then_writes rec (s : Stream) pos st :
  started (writer s) = true ->
  sameSchema' rec (writer s) = true ->
  pw (writer s) = Some pos ->
  run_Encode' rec s = (Ok tt, st) ->
  Write' rec s =
    let '(_, err, (sink', pos')) := writeIPCPayload (w_sink (writer s), pos) (pay st) in
    (match err with Some e => Err e | None => Ok tt end,
     mkStream (mkWriter sink' (Some pos') true (schema (writer s)))
              (s_refs s) (s_views s)).
Proof.
  intros Hst Hsame Hpw HE.
  rewrite Write_unfold, startIfNeeded_started by assumption. rewrite Hsame.
  rewrite (encodeAndWrite_ok rec s pos st Hpw HE), Hst. reflexivity.
Qed.

(** X18: [Close] returns or fails, and never panics; it touches neither
    the flag, the schema, the reference counts nor the views; when it
    succeeds the writer is closed; when it fails, the sink has refused the
    end-of-stream marker, the error is the error of the sink wrapped, and
    the writer keeps its payload writer, moved on by the count the sink
    reported, so that a later [Close] tries again. *)
Theorem Close_outcomes (s : Stream) :
  started (writer (snd (Close' s))) = started (writer s) /\
  schema (writer (snd (Close' s))) = schema (writer s) /\
  s_refs (snd (Close' s)) = s_refs s /\
  s_views (snd (Close' s)) = s_views s /\
  match fst (Close' s) with
  | Ok _ => closed (snd (Close' s))
  | Err e =>
      exists pos n e0,
        pw (writer s) = Some pos /\
        io_Write (w_sink (writer s)) kEOS = (n, Some e0, w_sink (writer (snd (Close' s)))) /\
        e = Wrap "arrow/ipc: could not close payload writer" e0 /\
        pw (writer (snd (Close' s))) = Some (Int64.add pos n)
  | _ => False
  end.
Proof.
  destruct (pw (writer s)) as [pos|] eqn:E.
  - rewrite (Close_open io_Write kEOS s pos E).
    destruct (io_Write (w_sink (writer s)) kEOS) as [[n [e|]] sink']; simpl.
    + repeat split. exists pos, n, e. auto.
    + repeat split.
  - rewrite Close_closed by exact E. simpl. repeat split. exact E.
Qed.

(** X19: the encoder that [Write] runs returns no other error than the
    recursion error, and returns it only for a record with a column nested
    deeper than the depth constant: with [allow64b] set, no array is
    refused for its length. *)
Theorem Write_encoder_refuses_only_deep_records rec (s : Stream) e st :
  run_Encode' rec s = (Err e, st) ->
  Cause e = errMaxRecursion /\
  (0 <= kMaxNestingDepth <= Int64.max_int ->
   keepsNesting NewSlice ->
   kMaxNestingDepth < Z.of_nat (maxNesting (rec_columns rec))).
Proof.
  intros HE.
  pose proof (run_Encode_post kMaxNestingDepth kArrowAlignment NewSlice
                writeRecordMessage rec s) as H.
  rewrite HE in H. destruct H as (_ & _ & _ & H). cbn [fst snd] in H.
  assert (Cause e = errMaxRecursion) as Hc.
  { destruct H as [H|[_ H]]; [exact H|discriminate H]. }
  split; [exact Hc|]. intros Hk K.
  exact (Encode_error_depth _ _ _ _ _ _ _ _ HE Hk K Hc).
Qed.

Lemma writePayloads_writeAll ps (s : Stream) pos :
  pw (writer s) = Some pos ->
  writePayloads writeIPCPayload ps s =
    let '(err, (sink', pos')) := writeAll writeIPCPayload ps (w_sink (writer s), pos) in
    (match err with Some e => Err e | None => Ok tt end,
     mkStream (mkWriter sink' (Some pos') (started (writer s)) (schema (writer s)))
              (s_refs s) (s_views s)).
Proof.
  revert s pos. induction ps as [|p ps IH]; intros s pos Hpw; simpl.
  - destruct s as [[sink q st sc] h v]. simpl in *. subst q. reflexivity.
  - unfold bind, swriter_write, with_pw. rewrite Hpw. cbn [fst snd].
    destruct (writeIPCPayload (w_sink (writer s), pos) p) as [[n [e|]] [sink1 pos1]].
    + reflexivity.
    + rewrite (IH _ pos1) by reflexivity. reflexivity.
Qed.

(** X20: on a writer that has its payload writer, [start] sets the flag,
    writes the schema payloads one after the other up to the first failure,
    returns that failure as it is, and releases every schema payload
    whether the writing failed or not. *)
Theorem Writer_start_writes_all (s : Stream) pos :
  pw (writer s) = Some pos ->
  Writer_start' s =
    let ps := payloadsFromSchema (schema (writer s)) in
    let '(err, (sink', pos')) := writeAll writeIPCPayload ps (w_sink (writer s), pos) in
    (match err with Some e => Err e | None => Ok tt end,
     mkStream (mkWriter sink' (Some pos') true (schema (writer s)))
              (releasePayloads ps (s_refs s)) (s_views s)).
Proof.
  intros Hpw. unfold Writer_start, bind, modify, gets, defer.
  rewrite (writePayloads_writeAll _ _ pos) by exact Hpw.
  cbn [set_writer writer w_sink pw started schema s_refs s_views]. cbv zeta.
  destruct (writeAll writeIPCPayload (payloadsFromSchema (schema (writer s)))
              (w_sink (writer s), pos)) as [[e|] [sink' pos']];
    rewrite payloads_Release_refs; reflexivity.
Qed.

Lemma writeAll_app ps qs (sw : Sink * Z) :
  writeAll writeIPCPayload (ps ++ qs) sw =
    match writeAll writeIPCPayload ps sw with
    | (Some e, sw') => (Some e, sw')
    | (None, sw') => writeAll writeIPCPayload qs sw'
    end.
Proof.
  revert sw. induction ps as [|p ps IH]; intros sw; simpl; [reflexivity|].
  destruct (writeIPCPayload sw p) as [[n [e|]] sw1]; [reflexivity|apply IH].
Qed.

(** X21: the first [Write] on a writer made by [NewWriter], for a record
    of the configured schema that the encoder accepts: the schema payloads
    and then the payload of the record are written through
    [writeIPCPayload], in that order, from position 0 and up to the first
    failure, which is what [Write] returns; the writer is started, and the
    reference counts are those left by the release of the schema
    payloads. *)
Theorem new_writer_first_Write sink sc h v rec st :
  let ps := payloadsFromSchema sc in
  sameSchema' rec (NewWriter sink sc) = true ->
  run_Encode' rec (mkStream (NewWriter sink sc) (releasePayloads ps h) v) = (Ok tt, st) ->
  Write' rec (mkStream (NewWriter sink sc) h v) =
    let '(err, (sink', pos')) :=
      writeAll writeIPCPayload (ps ++ [pay st]) (sink, 0) in
    (match err with Some e => Err e | None => Ok tt end,
     mkStream (mkWriter sink' (Some pos') true sc) (releasePayloads ps h) v).
Proof.
  intros ps Hsame HE. subst ps.
  rewrite Write_unfold, startIfNeeded_fresh by reflexivity.
  unfold Writer_start, bind, modify, gets, defer.
  rewrite (writePayloads_writeAll _ _ 0) by reflexivity.
  cbn [set_writer writer w_sink pw started schema s_refs s_views NewWriter].
  rewrite writeAll_app.
  destruct (writeAll writeIPCPayload (payloadsFromSchema sc) (sink, 0))
    as [[e|] [sink1 pos1]]; rewrite payloads_Release_refs;
    cbn [writer s_refs s_views]; [reflexivity|].
  unfold sameSchema in *. cbn [schema NewWriter] in *. rewrite Hsame.
  rewrite (encodeAndWrite_ok rec
             (mkStream (mkWriter sink1 (Some pos1) true sc)
                       (releasePayloads (payloadsFromSchema sc) h) v)
             pos1 st eq_refl HE).
  cbn [writer w_sink started schema s_refs s_views writeAll].
  destruct (writeIPCPayload (sink1, pos1) (pay st)) as [[n [e|]] [sink2 pos2]];
    reflexivity.
Qed.

End WriterFrame.

(** ** The claims on concrete streams *)

Lemma Demo_NewSlice_keepsNesting : keepsNesting Demo.NewSlice.
Proof.
  intros a i j v. unfold Demo.NewSlice.
  destruct ((i <? 0) || (j <? i) || (Array_Len a <? j)); [discriminate|].
  intros [= <-]. destruct a; reflexivity.
Qed.

(** The statement of C1 on a started stream and a record of another
    schema. *)
Lemma Write_inconsistent_schema_witness :
  Demo.Write (Demo.recB [Demo.int32x5 1]) Demo.stream1 =
    (Err errInconsistentSchema, Demo.stream1).
Proof.
  apply (proj1 (Write_inconsistent_schema Demo.Schema_Equal Demo.kMaxNestingDepth
                  Demo.kArrowAlignment Demo.payloadsFromSchema Demo.writeIPCPayload
                  Demo.NewSlice Demo.writeRecordMessage
                  (Demo.recB [Demo.int32x5 1]) Demo.stream1 eq_refl)).
  reflexivity.
Defined.

(** Against C1 as stated, the first [Write] of a stream: the record of
    schema [Demo.schemaB] is refused by the writer bound to [Demo.schemaA],
    but the sink, empty before the call, holds the schema header after
    it. *)
Lemma first_Write_writes_schema :
  fst (Demo.Write (Demo.recB [Demo.int32x5 1]) Demo.stream0) = Err errInconsistentSchema /\
  w_sink (writer Demo.stream0) = [] /\
  w_sink (writer (snd (Demo.Write (Demo.recB [Demo.int32x5 1]) Demo.stream0))) =
    Demo.schemaHeader.
Proof. vm_compute. repeat split. Qed.

(** The statement of C7 on a record whose only column is a tower of 64
    structs around a column of [int32], 65 levels for a depth constant of
    64: the encoder does not panic, the recursion error is what [Write]
    returns, and the stream is left as it was. *)
Lemma too_deep_is_rejected_witness :
  exists e,
    Demo.Write (Demo.recA [Demo.tower 64]) Demo.stream1 = (Err e, Demo.stream1) /\
    Cause e = errMaxRecursion.
Proof.
  assert (0 <= Demo.kMaxNestingDepth <= Int64.max_int) as Hk
    by (unfold Demo.kMaxNestingDepth, Int64.max_int; lia).
  destruct (proj2 (proj2 (too_deep_is_rejected Demo.Schema_Equal Demo.kMaxNestingDepth
                            Demo.kArrowAlignment Demo.payloadsFromSchema
                            Demo.writeIPCPayload Demo.NewSlice Demo.writeRecordMessage
                            Hk Demo_NewSlice_keepsNesting))
              (Demo.recA [Demo.tower 64]) Demo.stream1 Demo.stream1 (Demo.tower 64)
              eq_refl eq_refl (or_introl eq_refl) eq_refl) as [H|(p & H & _)].
  - exact H.
  - exfalso. vm_compute in H. discriminate H.
Defined.

(** Against C7 as stated, [Demo.deepView], 66 levels for a depth constant
    of 64: its first field is a view of a string column at physical offset
    1, on which the traversal panics before the depth budget is exhausted;
    neither [visit] nor [Write] returns the recursion error.  And an
    encoder that does not allow 64-bit lengths, with a depth budget of 2,
    refuses a struct array of [2^31] rows, four levels deep, for its
    length. *)
Lemma too_deep_record_panics :
  Demo.kMaxNestingDepth < Z.of_nat (nesting Demo.deepView) /\
  fst (Demo.visit Demo.deepView (Demo.st0 Demo.kMaxNestingDepth)) =
    Panic (NotImplementedOffset 1) /\
  fst (Demo.Write (Demo.recA [Demo.deepView]) Demo.stream1) =
    Panic (NotImplementedOffset 1) /\
  2 < Z.of_nat (nesting (StructArr (mkData (2 ^ 31) 0 0 [None]) [Demo.tower 2])) /\
  fst (Demo.visit (StructArr (mkData (2 ^ 31) 0 0 [None]) [Demo.tower 2])
         (mkSt (newRecordEncoder 0 2 false) (mkPayload MessageRecordBatch None [] 0)
               Demo.heap0 0)) = Err errBigArray.
Proof. vm_compute. repeat split. Qed.

(** The statement of C8 on a fresh stream over an empty sink. *)
Lemma Close_idempotent_witness :
  (exists n, Demo.io_Write [] Demo.kEOS =
               (n, None, w_sink (writer (snd (Demo.Close Demo.stream0))))) /\
  closed (snd (Demo.Close Demo.stream0)) /\
  Demo.Close (snd (Demo.Close Demo.stream0)) = (Ok tt, snd (Demo.Close Demo.stream0)) /\
  (forall s2 : Stream Demo.Schema Demo.Sink, closed s2 -> Demo.Close s2 = (Ok tt, s2)).
Proof.
  exact (Close_idempotent Demo.io_Write Demo.kEOS Demo.stream0
           (snd (Demo.Close Demo.stream0)) 0 eq_refl eq_refl).
Defined.

(** The statement of C9 on a fresh stream closed at once. *)
Lemma Write_after_Close_witness :
  ((exists e, fst (Demo.Write (Demo.recA [Demo.int32x5 1])
                     (snd (Demo.Close Demo.stream0))) = Err e) \/
   (exists p, fst (Demo.Write (Demo.recA [Demo.int32x5 1])
                     (snd (Demo.Close Demo.stream0))) = Panic p)) /\
  w_sink (writer (snd (Demo.Write (Demo.recA [Demo.int32x5 1])
                         (snd (Demo.Close Demo.stream0))))) =
    w_sink (writer (snd (Demo.Close Demo.stream0))) /\
  closed (snd (Demo.Write (Demo.recA [Demo.int32x5 1]) (snd (Demo.Close Demo.stream0)))).
Proof.
  refine (Write_after_Close Demo.Schema_Equal Demo.io_Write Demo.kEOS
            Demo.kMaxNestingDepth Demo.kArrowAlignment Demo.payloadsFromSchema
            Demo.writeIPCPayload Demo.NewSlice Demo.writeRecordMessage
            Demo.stream0 (snd (Demo.Close Demo.stream0))
            (Demo.recA [Demo.int32x5 1]) _ eq_refl).
  unfold Demo.kMaxNestingDepth, Int64.max_int. lia.
Defined.

(** ** Further properties on concrete inputs *)

Lemma Demo_NewSlice_slicesByIndex : slicesByIndex Demo.NewSlice.
Proof.
  assert (forall a i j v, Demo.NewSlice a i j = Some v ->
            data_offset (Array_Data v) = data_offset (Array_Data a) + i /\
            data_buffers (Array_Data v) = data_buffers (Array_Data a) /\
            Array_Len v = j - i) as H.
  { intros a i j v. unfold Demo.NewSlice.
    destruct ((i <? 0) || (j <? i) || (Array_Len a <? j)); [discriminate|].
    intros [= <-]. destruct a; repeat split; reflexivity. }
  split.
  - intros a i j v E. destruct (H a i j v E) as (H1 & H2 & _). auto.
  - intros a i j v E. exact (proj2 (proj2 (H a i j v E))).
Qed.

(** The statement of C3 on [Demo.wholeList], whose offsets designate the
    whole of its child: the child is re-sliced all the same, and the
    recursive visit is made on the slice. *)
Lemma visitList_slices_and_releases_witness :
  exists child s2,
    Demo.NewSlice Demo.int32x2 0 2 = Some child /\
    views s2 = 1%nat /\
    Demo.visit Demo.wholeList (Demo.st0 64) =
      let (r3, s3) := Demo.visit child s2 in
      match r3 with
      | Ok _ => (Ok tt, Array_Release (set_depth (fun d => Int64.add d 1) s3))
      | Err e =>
          (Err (Wrap "could not visit list element for array %T" e),
           Array_Release s3)
      | Panic p => (Panic p, Array_Release s3)
      | OutOfFuel => (OutOfFuel, Array_Release s3)
      end.
Proof.
  destruct (proj1 (proj2 (visitList_slices_and_releases Demo.kArrowAlignment
                            Demo.NewSlice))
              Demo.wholeList (mkData 1 0 0 [None; Demo.zeros 3 8]) [0; 2]
              Demo.int32x2 (Demo.st0 64) (or_introl eq_refl))
    as [(e & H & _)|[(p & s' & H & _)
       |(o0 & on & child & s2 & _ & H0 & Hl & Es & _ & Hv & E)]].
  - vm_compute. discriminate.
  - exfalso. vm_compute in H. discriminate H.
  - exfalso. vm_compute in H. discriminate H.
  - injection H0 as <-. injection Hl as <-.
    exists child, s2. split; [exact Es|]. split; [exact Hv|exact E].
Defined.

Lemma Demo_NewSlice_keepsShape : keepsShape Demo.NewSlice.
Proof.
  intros a i j v. unfold Demo.NewSlice.
  destruct ((i <? 0) || (j <? i) || (Array_Len a <? j)); [discriminate|].
  intros [= <-]. destruct a; split; reflexivity.
Qed.

(** The statement of X3 on [Demo.wholeList]: two nodes, four body
    entries. *)
Lemma visit_counts_witness :
  length (fields (enc (snd (Demo.visit Demo.wholeList (Demo.st0 64))))) = 2%nat /\
  length (body (pay (snd (Demo.visit Demo.wholeList (Demo.st0 64))))) = 4%nat.
Proof.
  apply (visit_counts Demo.kArrowAlignment Demo.NewSlice Demo.wholeList (Demo.st0 64)
           (snd (Demo.visit Demo.wholeList (Demo.st0 64))) Demo_NewSlice_keepsShape).
  vm_compute. reflexivity.
Defined.

(** The statement of X4 on [Demo.int32x5_nulls]: its field entry, and its
    validity buffer of 64 bytes. *)
Lemma visit_own_entries_witness :
  fields (enc (snd (Demo.visit Demo.int32x5_nulls (Demo.st0 64)))) !! 0%nat =
    Some (mkFieldMetadata 5 1 0) /\
  exists v,
    body (pay (snd (Demo.visit Demo.int32x5_nulls (Demo.st0 64)))) !! 0%nat = Some v /\
    (1 = 0 -> v = None) /\
    (1 <> 0 ->
     exists b, v = Some b /\ [Demo.zeros 4 64; Demo.zeros 1 20] !! 0%nat = Some (Some b)).
Proof.
  apply (visit_own_entries Demo.kArrowAlignment Demo.NewSlice Demo.int32x5_nulls
           (Demo.st0 64) (snd (Demo.visit Demo.int32x5_nulls (Demo.st0 64)))).
  vm_compute. reflexivity.
Defined.

(** The statement of X5 on [Demo.strings3]: the offsets and the values
    buffers are retained once each. *)
Lemma visit_retains_what_it_appends_witness :
  exists bs,
    body (pay (snd (Demo.visit Demo.strings3 (Demo.st0 64)))) = [] ++ bs /\
    refs (snd (Demo.visit Demo.strings3 (Demo.st0 64))) = retainAll bs Demo.heap0.
Proof.
  apply (visit_retains_what_it_appends Demo.kArrowAlignment Demo.NewSlice Demo.strings3
           (Demo.st0 64) (Ok tt) (snd (Demo.visit Demo.strings3 (Demo.st0 64)))).
  - vm_compute. reflexivity.
  - left. reflexivity.
Defined.

(** The statement of X6 on a tower of three structs. *)
Lemma visit_restores_depth_witness :
  0 < 64 /\ depth (enc (snd (Demo.visit (Demo.tower 3) (Demo.st0 64)))) = 64.
Proof.
  apply (visit_restores_depth Demo.kArrowAlignment Demo.NewSlice (Demo.tower 3)
           (Demo.st0 64) (snd (Demo.visit (Demo.tower 3) (Demo.st0 64)))).
  - vm_compute. discriminate.
  - vm_compute. reflexivity.
Defined.

(** The statement of X7 on a tower of 63 structs, 64 levels for a budget of
    64. *)
Lemma visit_within_budget_witness :
  (exists s', Demo.visit (Demo.tower 63) (Demo.st0 64) = (Ok tt, s')) \/
  (exists p s', Demo.visit (Demo.tower 63) (Demo.st0 64) = (Panic p, s')).
Proof.
  apply (visit_within_budget Demo.kArrowAlignment Demo.NewSlice (Demo.tower 63)
           (Demo.st0 64) Demo_NewSlice_keepsNesting).
  - reflexivity.
  - vm_compute. split; discriminate.
Defined.

(** The statement of X8 on [Demo.shiftedList], whose offsets [1, 3]
    designate two of the four values of its child: the view visited begins
    at slot 1 and has one slot. *)
Lemma list_child_is_always_sliced_witness :
  (exists o0 on child,
     [1; 3] !! 0%nat = Some o0 /\
     0 <= 1 /\
     [1; 3] !! Z.to_nat 1 = Some on /\
     Demo.NewSlice Demo.bools4 o0 (Int64.sub on o0) = Some child /\
     data_offset (Array_Data child) = 0 + o0 /\
     Array_Len child = Int64.sub on o0 - o0 /\
     fields (enc (snd (Demo.visit Demo.shiftedList (Demo.st0 64)))) !! 1%nat =
       Some (mkFieldMetadata (Array_Len child) (Array_NullN child) 0)) /\
  fields (enc (snd (Demo.visit Demo.shiftedList (Demo.st0 64)))) =
    [mkFieldMetadata 1 0 0; mkFieldMetadata 1 0 0].
Proof.
  split; [|vm_compute; reflexivity].
  apply (list_child_is_always_sliced Demo.kArrowAlignment Demo.NewSlice Demo.shiftedList
           (mkData 1 0 0 [None; Demo.zeros 3 8]) [1; 3] Demo.bools4 (Demo.st0 64)
           (snd (Demo.visit Demo.shiftedList (Demo.st0 64)))
           Demo_NewSlice_slicesByIndex).
  - left. reflexivity.
  - vm_compute. discriminate.
  - vm_compute. reflexivity.
Defined.

(** The statement of X9 on [Demo.strings3_sliced], a view at offset 1:
    the visit panics. *)
Lemma visit_refuses_offset_views_witness :
  (forall u, fst (Demo.visit Demo.strings3_sliced (Demo.st0 64)) <> Ok u) /\
  fst (Demo.visit Demo.strings3_sliced (Demo.st0 64)) = Panic (NotImplementedOffset 1).
Proof.
  split; [|vm_compute; reflexivity].
  apply (visit_refuses_offset_views Demo.kArrowAlignment Demo.NewSlice
           Demo.strings3_sliced (Demo.st0 64)).
  - simpl. lia.
  - exact I.
Defined.

(** The statement of X10 on an encoder without budget, and on an encoder
    that does not allow 64-bit lengths given an array of [2^31] slots. *)
Lemma visit_prologue_errors_witness :
  Demo.visit (Demo.int32x5 1) (Demo.st0 0) = (Err errMaxRecursion, Demo.st0 0) /\
  Demo.visit (NullArr (mkData (2 ^ 31) 0 0 []))
    (mkSt (newRecordEncoder 0 64 false) (mkPayload MessageRecordBatch None [] 0)
          Demo.heap0 0) =
    (Err errBigArray,
     mkSt (newRecordEncoder 0 64 false) (mkPayload MessageRecordBatch None [] 0)
          Demo.heap0 0).
Proof.
  split.
  - apply (proj1 (visit_prologue_errors Demo.kArrowAlignment Demo.NewSlice
                    (Demo.int32x5 1) (Demo.st0 0))).
    simpl. lia.
  - apply (proj2 (visit_prologue_errors Demo.kArrowAlignment Demo.NewSlice
                    (NullArr (mkData (2 ^ 31) 0 0 []))
                    (mkSt (newRecordEncoder 0 64 false)
                          (mkPayload MessageRecordBatch None [] 0) Demo.heap0 0))).
    + simpl. lia.
    + reflexivity.
    + vm_compute. reflexivity.
Defined.

(** The statement of X12 on [Demo.threeColumns]. *)
Lemma Encode_meta_aligned_witness :
  length (meta (enc (snd (Demo.Encode Demo.threeColumns 5 (Demo.st0 64))))) =
    length (body (pay (snd (Demo.Encode Demo.threeColumns 5 (Demo.st0 64))))) /\
  Forall (fun m => bm_Len m mod 8 = 0 /\ (bm_Offset m - 0) mod 8 = 0)
         (meta (enc (snd (Demo.Encode Demo.threeColumns 5 (Demo.st0 64))))).
Proof.
  apply (Encode_meta_aligned Demo.kArrowAlignment Demo.NewSlice Demo.writeRecordMessage
           Demo.threeColumns 5 (Demo.st0 64)
           (snd (Demo.Encode Demo.threeColumns 5 (Demo.st0 64)))).
  vm_compute. reflexivity.
Defined.

(** The statement of X13 on [Demo.threeColumns]: three nodes and seven
    body entries. *)
Lemma Encode_result_witness :
  pmeta (pay (snd (Demo.Encode Demo.threeColumns 5 (Demo.st0 64)))) =
    Some (Demo.writeRecordMessage 5
            (size (pay (snd (Demo.Encode Demo.threeColumns 5 (Demo.st0 64)))))
            (fields (enc (snd (Demo.Encode Demo.threeColumns 5 (Demo.st0 64)))))
            (meta (enc (snd (Demo.Encode Demo.threeColumns 5 (Demo.st0 64)))))) /\
  msg (pay (snd (Demo.Encode Demo.threeColumns 5 (Demo.st0 64)))) = MessageRecordBatch /\
  (64 <= Int64.max_int ->
   depth (enc (snd (Demo.Encode Demo.threeColumns 5 (Demo.st0 64)))) = 64) /\
  exists fs bs,
    fields (enc (snd (Demo.Encode Demo.threeColumns 5 (Demo.st0 64)))) = [] ++ fs /\
    body (pay (snd (Demo.Encode Demo.threeColumns 5 (Demo.st0 64)))) = [] ++ bs /\
    refs (snd (Demo.Encode Demo.threeColumns 5 (Demo.st0 64))) = retainAll bs Demo.heap0 /\
    (keepsShape Demo.NewSlice -> length fs = 3%nat /\ length bs = 7%nat).
Proof.
  apply (Encode_result Demo.kArrowAlignment Demo.NewSlice Demo.writeRecordMessage
           Demo.threeColumns 5 (Demo.st0 64)
           (snd (Demo.Encode Demo.threeColumns 5 (Demo.st0 64)))).
  vm_compute. reflexivity.
Defined.

(** The statement of X14 on a column nested deeper than the budget: three
    levels for a budget of 2. *)
Lemma Encode_error_stops_first_pass_witness :
  meta (enc (snd (Demo.Encode [Demo.tower 2] 5 (Demo.st0 2)))) = [] /\
  size (pay (snd (Demo.Encode [Demo.tower 2] 5 (Demo.st0 2)))) = 0 /\
  pmeta (pay (snd (Demo.Encode [Demo.tower 2] 5 (Demo.st0 2)))) = None /\
  exists bs,
    body (pay (snd (Demo.Encode [Demo.tower 2] 5 (Demo.st0 2)))) = [] ++ bs /\
    refs (snd (Demo.Encode [Demo.tower 2] 5 (Demo.st0 2))) = retainAll bs Demo.heap0.
Proof.
  apply (Encode_error_stops_first_pass Demo.kArrowAlignment Demo.NewSlice
           Demo.writeRecordMessage [Demo.tower 2] 5 (Demo.st0 2)
           (Wrap "arrow/ipc: could not encode column %d (%q)"
              (Wrap "could not visit field %d of struct-array"
                 (Wrap "could not visit field %d of struct-array" errMaxRecursion)))
           (snd (Demo.Encode [Demo.tower 2] 5 (Demo.st0 2)))).
  vm_compute. reflexivity.
Defined.

(** The statement of X16 on a started stream and a record of one column:
    the reference counts are those before the call. *)
Lemma Write_releases_witness :
  s_refs (snd (Demo.Write (Demo.recA [Demo.int32x5 1]) Demo.stream1)) = Demo.heap0.
Proof.
  apply (Write_releases Demo.Schema_Equal Demo.kMaxNestingDepth Demo.kArrowAlignment
           Demo.payloadsFromSchema Demo.writeIPCPayload Demo.NewSlice
           Demo.writeRecordMessage (Demo.recA [Demo.int32x5 1]) Demo.stream1 (Ok tt)
           (snd (Demo.Write (Demo.recA [Demo.int32x5 1]) Demo.stream1))).
  - vm_compute. reflexivity.
  - left. reflexivity.
Defined.

(** The statement of X17 on the same stream and record. *)
Lemma Write_encodes_then_writes_witness :
  Demo.Write (Demo.recA [Demo.int32x5 1]) Demo.stream1 =
    let '(_, err, (sink', pos')) :=
      Demo.writeIPCPayload (Demo.schemaHeader, 4)
        (pay (snd (Demo.Encode [Demo.int32x5 1] 5 (Demo.st0 64)))) in
    (match err with Some e => Err e | None => Ok tt end,
     mkStream (mkWriter sink' (Some pos') true (Some Demo.schemaA)) Demo.heap0 0%nat).
Proof.
  apply (Write_encodes_then_writes Demo.Schema_Equal Demo.kMaxNestingDepth
           Demo.kArrowAlignment Demo.payloadsFromSchema Demo.writeIPCPayload Demo.NewSlice
           Demo.writeRecordMessage (Demo.recA [Demo.int32x5 1]) Demo.stream1 4
           (snd (Demo.Encode [Demo.int32x5 1] 5 (Demo.st0 64)))).
  - reflexivity.
  - reflexivity.
  - reflexivity.
  - vm_compute. reflexivity.
Defined.

(** The statement of X19 on a record whose column is a tower of two
    structs, three levels, for a depth constant of 2. *)
Lemma Write_encoder_refuses_only_deep_records_witness :
  Cause (Wrap "arrow/ipc: could not encode column %d (%q)"
           (Wrap "could not visit field %d of struct-array"
              (Wrap "could not visit field %d of struct-array" errMaxRecursion))) =
    errMaxRecursion /\
  (0 <= 2 <= Int64.max_int -> keepsNesting Demo.NewSlice ->
   2 < Z.of_nat (maxNesting [Demo.tower 2])).
Proof.
  apply (Write_encoder_refuses_only_deep_records (Schema := Demo.Schema)
           (Sink := Demo.Sink) 2 Demo.kArrowAlignment
           Demo.NewSlice Demo.writeRecordMessage (Demo.recA [Demo.tower 2]) Demo.stream1
           (Wrap "arrow/ipc: could not encode column %d (%q)"
              (Wrap "could not visit field %d of struct-array"
                 (Wrap "could not visit field %d of struct-array" errMaxRecursion)))
           (snd (run_Encode 2 Demo.kArrowAlignment Demo.NewSlice Demo.writeRecordMessage
                   (Demo.recA [Demo.tower 2]) Demo.stream1))).
  vm_compute. reflexivity.
Defined.

(** The statement of X20 on a fresh stream over an empty sink: the schema
    header is written. *)
Lemma Writer_start_writes_all_witness :
  Writer_start Demo.payloadsFromSchema Demo.writeIPCPayload Demo.stream0 =
    (Ok tt, Demo.stream1).
Proof.
  exact (Writer_start_writes_all Demo.payloadsFromSchema Demo.writeIPCPayload
           Demo.stream0 0 eq_refl).
Defined.

(** The statement of X21 on a fresh stream over an empty sink and a
    record of one column. *)
Lemma new_writer_first_Write_witness :
  Demo.Write (Demo.recA [Demo.int32x5 1]) Demo.stream0 =
    let '(err, (sink', pos')) :=
      writeAll Demo.writeIPCPayload
        (Demo.payloadsFromSchema (Some Demo.schemaA) ++
         [pay (snd (Demo.Encode [Demo.int32x5 1] 5 (Demo.st0 64)))]) ([], 0) in
    (match err with Some e => Err e | None => Ok tt end,
     mkStream (mkWriter sink' (Some pos') true (Some Demo.schemaA)) Demo.heap0 0%nat).
Proof.
  apply (new_writer_first_Write Demo.Schema_Equal Demo.kMaxNestingDepth
           Demo.kArrowAlignment Demo.payloadsFromSchema Demo.writeIPCPayload Demo.NewSlice
           Demo.writeRecordMessage [] (Some Demo.schemaA) Demo.heap0 0%nat
           (Demo.recA [Demo.int32x5 1])
           (snd (Demo.Encode [Demo.int32x5 1] 5 (Demo.st0 64)))).
  - reflexivity.
  - vm_compute. reflexivity.
Defined.
